(** * The todo GraphQL service of [src/index.js]

    The service is a set of GraphQL resolvers over one document
    collection (the mongoose model [Todo]) and one custom scalar, [Date].

    - [JS] holds the fragment of JavaScript the resolvers rely on: the three
      states of an argument (absent, [null], given), default parameters,
      numbers, [Date] objects and the [Date] constructor.
    - [Scalar] is the [Date] scalar of lines 154-169.
    - [Store] is the document collection the model [Todo] talks to: the
      four calls the resolvers make ([find], [save], [deleteOne],
      [findOneAndUpdate]) on a list of documents kept in natural order.
    - [Resolvers] are [Query.todosList] and the four mutations of lines
      106-153, written over a state-and-error monad. [Mutation] has the
      mutations on an identifier; [Request] has [delete], [update] and
      [complete] as they are called, with the [id] a string that the store
      has to cast to an identifier first and may refuse.

    The store and the language are libraries of the service, not part of
    it: [Store] follows what the calls are documented to do (a filter is
    matched by equality, [deleteOne] and [findOneAndUpdate] act on the first
    match, [save] validates against the schema and inserts). What the code
    leaves open to its libraries is a parameter: how the store reads the
    [order] word of a sort, which strings it takes for an identifier, and
    what [Date.parse] does with a string that is not a plain year. *)

From Stdlib Require Import ZArith Lia.
From stdpp Require Import base decidable option list sets sorting strings.

Local Open Scope Z_scope.

(** ** JavaScript values *)

Module JS.

(** An argument of a GraphQL field as the resolver finds it in [args]:
    the key is missing ([undefined]), holds [null], or holds a value. *)
Inductive arg (A : Type) : Type :=
| Absent
| Null
| Given (a : A).
Global Arguments Absent {A}.
Global Arguments Null {A}.
Global Arguments Given {A} a.

Global Instance arg_eq_dec {A} `{EqDecision A} : EqDecision (arg A).
Proof. solve_decision. Defined.

(** A destructuring default [{ x = d }]: the default replaces [undefined]
    only; [null] stays [null] (here [None]). The default may itself be
    [null]. *)
Definition or_default {A} (d : option A) (a : arg A) : option A :=
  match a with
  | Absent => d
  | Null => None
  | Given v => Some v
  end.

(** Integral numbers and [NaN]; fractions do not occur in what follows. *)
Inductive number : Type :=
| Num (z : Z)
| NaN.

(** A [Date] object: a time value in milliseconds since the epoch, or
    the object [Invalid Date], whose time value is [NaN]. *)
Inductive Date : Type :=
| Date_at (t : Z)
| Invalid_Date.

Global Instance Date_eq_dec : EqDecision Date.
Proof. solve_decision. Defined.

Definition getTime (d : Date) : number :=
  match d with
  | Date_at t => Num t
  | Invalid_Date => NaN
  end.

(** The values a caller can supply for a scalar through a variable. *)
Inductive value : Type :=
| VNull
| VBoolean (b : bool)
| VNumber (n : number)
| VString (s : string).

Definition ToNumber_non_string (v : value) : number :=
  match v with
  | VNull => Num 0
  | VBoolean b => Num (if b then 1 else 0)
  | VNumber n => n
  | VString _ => NaN
  end.

(** [TimeClip]: a time value is kept when it is at most 8.64e15 ms away
    from the epoch. *)
Definition TimeClip (n : number) : Date :=
  match n with
  | Num t => if bool_decide (Z.abs t ≤ 8640000000000000) then Date_at t else Invalid_Date
  | NaN => Invalid_Date
  end.

(** [DayFromYear] and [TimeFromYear] of the language definition. *)
Definition msPerDay : Z := 86400000.

Definition DayFromYear (y : Z) : Z :=
  365 * (y - 1970) + (y - 1969) `div` 4 - (y - 1901) `div` 100 + (y - 1601) `div` 400.

Definition TimeFromYear (y : Z) : Z := msPerDay * DayFromYear y.

Definition digit (c : Ascii.ascii) : option Z :=
  let n := Z.of_N (Ascii.N_of_ascii c) in
  if bool_decide (48 ≤ n ≤ 57) then Some (n - 48) else None.

(** The year-only form [YYYY] of the date-time string format. *)
Definition year_only (s : string) : option Z :=
  match s with
  | String a (String b (String c (String d EmptyString))) =>
      match digit a, digit b, digit c, digit d with
      | Some a, Some b, Some c, Some d => Some (1000 * a + 100 * b + 10 * c + d)
      | _, _, _, _ => None
      end
  | _ => None
  end.

Section Date_constructor.

(** What [Date.parse] answers for a string that is not of the form
    [YYYY]: the longer forms of the format and the fallbacks of the
    engine. *)
Variable other_forms : string → number.

(** [Date.parse]: a date-only form is a UTC time. *)
Definition Date_parse (s : string) : number :=
  match year_only s with
  | Some y => Num (TimeFromYear y)
  | None => other_forms s
  end.

(** [new Date(value)]: a string is parsed, anything else is converted
    to a number. *)
Definition new_Date (v : value) : Date :=
  match v with
  | VString s => TimeClip (Date_parse s)
  | _ => TimeClip (ToNumber_non_string v)
  end.

End Date_constructor.

(** [Boolean(n)] for a number. *)
Definition Boolean (n : number) : bool :=
  match n with
  | Num z => negb (z =? 0)
  | NaN => false
  end.

End JS.

(** ** The scalar [Date] (lines 154-169) *)

Module Scalar.
Import JS.

(** The value nodes of a GraphQL document (list and object nodes, which
    the scalar treats like every node that is not an integer, are left
    out). The text of an integer or a float literal is kept as a string
    in the node. *)
Inductive ValueNode : Type :=
| IntValue (value : string)
| FloatValue (value : string)
| StringValue (value : string)
| BooleanValue (value : bool)
| NullValue
| EnumValue (value : string)
| Variable_ (name : string).

Section Date_scalar.
Variable other_forms : string → number.

(** [parseValue(value) { return new Date(value); }] *)
Definition parseValue (v : value) : Date := new_Date other_forms v.

(** [serialize(value) { return value.getTime(); }] *)
Definition serialize (d : Date) : number := getTime d.

(** [parseLiteral(ast)]: [new Date(ast.value)] when [ast.kind] is
    [Kind.INT], that is on an [IntValue] node, and [null] otherwise. *)
Definition parseLiteral (ast : ValueNode) : option Date :=
  match ast with
  | IntValue v => Some (new_Date other_forms (VString v))
  | _ => None
  end.

End Date_scalar.

End Scalar.

(** ** The collection behind the model [Todo] (lines 17-24) *)

Module Store.
Import JS.

(** Identifiers are handed out by the store; they are modelled by a
    counter. *)
Definition ObjectId : Type := N.

(** A document of [todoSchema], with the [_id] every document carries.
    A path of the schema may hold [null]. *)
Record Todo : Type := mkTodo {
  _id : ObjectId;
  description : string;
  createdAt : option Date;
  completed : option bool;
  priority : option Z
}.

Global Instance Todo_eq_dec : EqDecision Todo.
Proof. solve_decision. Defined.

(** The values a path of a stored document holds. *)
Inductive bson : Type :=
| BNull
| BNumber (n : Z)
| BString (s : string)
| BObjectId (i : ObjectId)
| BBoolean (b : bool)
| BDate (t : Z).

Global Instance bson_eq_dec : EqDecision bson.
Proof. solve_decision. Defined.

(** Reading a path given by name, as a filter or a sort does; a path the
    schema does not have reads as a missing value. *)
Definition get (path : string) (t : Todo) : bson :=
  if decide (path = "_id") then BObjectId (_id t)
  else if decide (path = "description") then BString (description t)
  else if decide (path = "createdAt") then
    match createdAt t with Some (Date_at ms) => BDate ms | _ => BNull end
  else if decide (path = "completed") then from_option BBoolean BNull (completed t)
  else if decide (path = "priority") then from_option BNumber BNull (priority t)
  else BNull.

(** A filter is a document of required values: [{}], [{ completed: c }],
    [{ _id: id }]. *)
Definition conditions : Type := list (string * bson).

Definition matches (q : conditions) (t : Todo) : Prop :=
  Forall (λ c, get c.1 t = c.2) q.

Global Instance matches_dec q t : Decision (matches q t).
Proof. unfold matches. apply _. Defined.

(** The comparison order of stored values: by type first (null, numbers,
    strings, identifiers, booleans, dates), then within the type. *)
Definition type_rank (v : bson) : Z :=
  match v with
  | BNull => 1
  | BNumber _ => 2
  | BString _ => 3
  | BObjectId _ => 7
  | BBoolean _ => 8
  | BDate _ => 9
  end.

Definition bson_le (a b : bson) : Prop :=
  match a, b with
  | BNumber x, BNumber y => x ≤ y
  | BString x, BString y => String.le x y
  | BObjectId x, BObjectId y => (x ≤ y)%N
  | BBoolean x, BBoolean y => implb x y
  | BDate x, BDate y => x ≤ y
  | _, _ => type_rank a ≤ type_rank b
  end.

Global Instance bson_le_dec : RelDecision bson_le.
Proof. intros [] []; simpl; apply _. Defined.

Inductive direction : Type := Ascending | Descending.

(** [before path d t1 t2]: [t1] may come before [t2] in a result sorted
    on [path] in direction [d]. *)
Definition before (path : string) (d : direction) : relation Todo :=
  λ t1 t2,
    match d with
    | Ascending => bson_le (get path t1) (get path t2)
    | Descending => bson_le (get path t2) (get path t1)
    end.

Global Instance before_dec path d : RelDecision (before path d).
Proof. intros t1 t2. destruct d; simpl; apply _. Defined.

(** The state: the documents in natural (insertion) order and the next
    identifier to hand out. *)
Record Collection : Type := mkCollection {
  docs : list Todo;
  next_id : ObjectId
}.

Definition empty : Collection := mkCollection [] 0%N.

(** Identifiers are unique and were all handed out already. *)
Definition consistent (c : Collection) : Prop :=
  NoDup (_id <$> docs c) ∧ Forall (λ t, (_id t < next_id c)%N) (docs c).

Global Instance consistent_dec c : Decision (consistent c).
Proof. unfold consistent. apply _. Defined.

(** *** Calls on the collection: state passing, with rejection *)

Inductive StoreError : Type := Store_error (message : string).

Definition message (e : StoreError) : string :=
  match e with Store_error m => m end.

Definition M (E A : Type) : Type := Collection → (E + A) * Collection.

Global Instance M_ret {E} : MRet (M E) := λ A a c, (inr a, c).

Global Instance M_bind {E} : MBind (M E) :=
  λ A B k m c,
    match m c with
    | (inr a, c') => k a c'
    | (inl e, c') => (inl e, c')
    end.

(** [try { return await m } catch (e) { throw h(e) }] *)
Definition try_catch {E E' A} (m : M E A) (h : E → E') : M E' A :=
  λ c, match m c with
       | (inr a, c') => (inr a, c')
       | (inl e, c') => (inl (h e), c')
       end.

Inductive assignment : Type :=
| Set_description (s : string)
| Set_completed (b : bool)
| Set_priority (p : Z).

Definition assign (a : assignment) (t : Todo) : Todo :=
  match a with
  | Set_description s => mkTodo (_id t) s (createdAt t) (completed t) (priority t)
  | Set_completed b => mkTodo (_id t) (description t) (createdAt t) (Some b) (priority t)
  | Set_priority p => mkTodo (_id t) (description t) (createdAt t) (completed t) (Some p)
  end.

(** An update document [{ path: value, ... }] sets each path in turn. *)
Definition apply_update (u : list assignment) (t : Todo) : Todo :=
  foldl (λ t a, assign a t) t u.

(** The first document a filter matches, taken out of the list. *)
Fixpoint remove_first (q : conditions) (l : list Todo) : option (list Todo) :=
  match l with
  | [] => None
  | t :: l' =>
      if decide (matches q t) then Some l'
      else cons t <$> remove_first q l'
  end.

(** The first document a filter matches, replaced: the old document,
    the new one and the new list. *)
Fixpoint replace_first (q : conditions) (f : Todo → Todo) (l : list Todo)
  : option (Todo * Todo * list Todo) :=
  match l with
  | [] => None
  | t :: l' =>
      if decide (matches q t) then Some (t, f t, f t :: l')
      else (λ r, (r.1.1, r.1.2, t :: r.2)) <$> replace_first q f l'
  end.

Record DeleteResult : Type := mkDeleteResult { deletedCount : number }.

(** The third argument of [find]: nothing ([undefined] or [null]), a
    string where an object is expected, or [{ sort: { [path]: order } }]. *)
Inductive find_options : Type :=
| No_options
| Bare (s : string)
| Sort_on (path : string) (order : option string).

(** What the code leaves to the store: how it reads the value under a
    sort path ([null] is [None]), with [None] when it does not take it for a
    direction; and whether it passes over options that are not an
    object. *)
Record Driver : Type := mkDriver {
  read_order : option string → option direction;
  bare_options : bool
}.

Section Driver.
Variable D : Driver.

(** [Todo.find(filter, null, options)]: the documents the filter
    matches, in natural order unless [options] carries a sort. *)
Definition find (q : conditions) (options : find_options) : M StoreError (list Todo) :=
  λ c,
    let hits := filter (matches q) (docs c) in
    match options with
    | No_options => (inr hits, c)
    | Bare _ =>
        if bare_options D then (inr hits, c)
        else (inl (Store_error "Options must be an object"), c)
    | Sort_on path order =>
        match read_order D order with
        | Some d => (inr (merge_sort (before path d) hits), c)
        | None => (inl (Store_error "Invalid sort value"), c)
        end
    end.

End Driver.

(** [new Todo({ description, createdAt, completed, priority })]: the
    document gets its identifier when it is built. *)
Definition new_Todo (description : string) (createdAt : option Date)
    (completed : option bool) (priority : option Z) : M StoreError Todo :=
  λ c, (inr (mkTodo (next_id c) description createdAt completed priority),
        mkCollection (docs c) (N.succ (next_id c))).

(** [doc.save()]: the document is validated against the schema, where a
    date that is [Invalid Date] fails, and inserted. *)
Definition save (t : Todo) : M StoreError Todo :=
  λ c,
    if decide (createdAt t = Some Invalid_Date)
    then (inl (Store_error "Todo validation failed"), c)
    else (inr t, mkCollection (docs c ++ [t]) (next_id c)).

(** [Todo.deleteOne(filter)] *)
Definition deleteOne (q : conditions) : M StoreError DeleteResult :=
  λ c,
    match remove_first q (docs c) with
    | Some l => (inr (mkDeleteResult (Num 1)), mkCollection l (next_id c))
    | None => (inr (mkDeleteResult (Num 0)), c)
    end.

(** [Todo.findOneAndUpdate(filter, update, { new })]: the document
    after the update when [new] is set, before it otherwise; [null]
    when the filter matches nothing. *)
Definition findOneAndUpdate (q : conditions) (u : list assignment) (new : bool)
  : M StoreError (option Todo) :=
  λ c,
    match replace_first q (apply_update u) (docs c) with
    | Some (old, upd, l) =>
        (inr (Some (if new then upd else old)), mkCollection l (next_id c))
    | None => (inr None, c)
    end.

End Store.

(** ** The resolvers (lines 106-153) *)

Module Resolvers.
Import JS Store.

Inductive ApolloError : Type := Apollo_error (message : string).

(** [catch (e) { throw new ApolloError(e.message); }] *)
Definition rethrow (e : StoreError) : ApolloError := Apollo_error (message e).

(** In [Mutation] an [id] is the identifier the store has made of the
    string the caller sent; [Request], below, has the cast and its
    failure. *)

Module Query.

(** [sortBy && { sort: { [sortBy]: order } }]: a falsy [sortBy] itself,
    or the options. *)
Definition sort_options (sortBy : arg string) (order : option string) : find_options :=
  match sortBy with
  | Given s => if decide (s = "") then Bare s else Sort_on s order
  | _ => No_options
  end.

Section Driver.
Variable D : Driver.

Definition todosList (sortBy : arg string) (order : arg string)
    (completed : arg bool) : M ApolloError (list Todo) :=
  let order := or_default (Some "ASC"%string) order in
  let completed := or_default None completed in
  let filter :=
    match completed with
    | Some c => [("completed"%string, BBoolean c)]
    | None => []
    end in
  let sort := sort_options sortBy order in
  try_catch (find D filter sort) rethrow.

End Driver.
End Query.

Module Mutation.

(** [now] is what the clock reads when the call is made. *)
Definition create (now : Z) (description : string) (createdAt : arg Date)
    (completed : arg bool) (priority : arg Z) : M ApolloError Todo :=
  let createdAt := or_default (Some (Date_at now)) createdAt in
  let completed := or_default (Some false) completed in
  let priority := or_default (Some 1) priority in
  try_catch
    (doc ← new_Todo description createdAt completed priority; save doc)
    rethrow.

Definition delete (id : ObjectId) : M ApolloError bool :=
  try_catch
    (success ← deleteOne [("_id"%string, BObjectId id)];
     mret (Boolean (deletedCount success)))
    rethrow.

Definition update (id : ObjectId) (description : string) (priority : arg Z)
  : M ApolloError (option Todo) :=
  let priority := or_default (Some 1) priority in
  let validPriority :=
    match priority with
    | Some p => if bool_decide (0 < p) then p else 1
    | None => 1
    end in
  try_catch
    (findOneAndUpdate [("_id"%string, BObjectId id)]
       [Set_description description; Set_priority validPriority] true)
    rethrow.

Definition complete (id : ObjectId) : M ApolloError (option Todo) :=
  try_catch
    (findOneAndUpdate [("_id"%string, BObjectId id)] [Set_completed true] true)
    rethrow.

End Mutation.

(** The mutations that take an [id], as they are called: [id] is a
    [String!], and the filter [{ _id: id }] is cast by the store before it
    is used. *)
Module Request.
Section Cast.

(** The cast of the store on the string under [_id]: the identifier, or
    the error the call is rejected with. *)
Variable castObjectId : string → StoreError + ObjectId.

(** A call filtered on [{ _id: id }], inside the [try] of a resolver:
    when the cast fails the call is rejected and the [catch] rethrows. *)
Definition filtered_on_id {A} (id : string) (resolver : ObjectId → M ApolloError A)
  : M ApolloError A :=
  λ c,
    match castObjectId id with
    | inr oid => resolver oid c
    | inl e => (inl (rethrow e), c)
    end.

Definition delete (id : string) : M ApolloError bool :=
  filtered_on_id id Mutation.delete.

Definition update (id : string) (description : string) (priority : arg Z)
  : M ApolloError (option Todo) :=
  filtered_on_id id (λ oid, Mutation.update oid description priority).

Definition complete (id : string) : M ApolloError (option Todo) :=
  filtered_on_id id Mutation.complete.

End Cast.
End Request.

End Resolvers.

Import JS Store Resolvers.

(** ** A sample driver and a sample collection *)

Definition sample_order (o : option string) : option direction :=
  match o with
  | Some s =>
      if decide (s = "ASC") then Some Ascending
      else if decide (s = "DESC") then Some Descending
      else None
  | None => None
  end.

Definition sample_driver : Driver := mkDriver sample_order false.

(** A cast that takes the 24 hexadecimal digits of an identifier and
    refuses every other string. *)
Definition hex_digit (a : Ascii.ascii) : option N :=
  let n := Ascii.N_of_ascii a in
  if bool_decide (48 ≤ n ≤ 57)%N then Some (n - 48)%N
  else if bool_decide (97 ≤ n ≤ 102)%N then Some (n - 87)%N
  else if bool_decide (65 ≤ n ≤ 70)%N then Some (n - 55)%N
  else None.

Fixpoint hex_value (s : string) (acc : N) : option N :=
  match s with
  | EmptyString => Some acc
  | String a s' =>
      match hex_digit a with
      | Some d => hex_value s' (16 * acc + d)%N
      | None => None
      end
  end.

Definition sample_cast (s : string) : StoreError + ObjectId :=
  if decide (String.length s = 24%nat) then
    match hex_value s 0%N with
    | Some n => inr n
    | None => inl (Store_error "Cast to ObjectId failed")
    end
  else inl (Store_error "Cast to ObjectId failed").

Definition milk : Todo := mkTodo 0%N "buy milk" (Some (Date_at 30)) (Some false) (Some 3).
Definition home : Todo := mkTodo 1%N "call home" (Some (Date_at 10)) (Some true) (Some (-2)).
Definition bike : Todo := mkTodo 2%N "air bike" None None (Some 1).

Definition sample : Collection := mkCollection [milk; home; bike] 3%N.

(** The paths of [todoSchema], with [_id]. *)
Definition paths : list string :=
  ["_id"; "description"; "createdAt"; "completed"; "priority"]%string.

Definition by_id (id : ObjectId) : conditions := [("_id"%string, BObjectId id)].

Definition by_completed (b : bool) : conditions := [("completed"%string, BBoolean b)].

(** Replacing the document that carries [id], in place. *)
Definition replace_id (id : ObjectId) (f : Todo → Todo) (l : list Todo) : list Todo :=
  (λ x, if decide (_id x = id) then f x else x) <$> l.

(** [selected completed t]: [t] passes the filter [todosList] builds
    from its [completed] argument. *)
Definition selected (completed : arg bool) (t : Todo) : Prop :=
  match completed with
  | Given b => Store.completed t = Some b
  | _ => True
  end.

Global Instance selected_dec completed t : Decision (selected completed t).
Proof. destruct completed; simpl; apply _. Defined.

(** [accepted D sortBy order]: the store takes the sort request of a
    call with these arguments, if the call makes one. *)
Definition accepted (D : Driver) (sortBy order : arg string) : Prop :=
  match Query.sort_options sortBy (or_default (Some "ASC"%string) order) with
  | No_options => True
  | Bare _ => bare_options D = true
  | Sort_on _ o => is_Some (read_order D o)
  end.

(** The collections the service can be in: what the mutations make of
    the empty collection. *)
Inductive reachable : Collection → Prop :=
| reachable_empty : reachable Store.empty
| reachable_create c now description createdAt completed priority :
    reachable c →
    reachable (Mutation.create now description createdAt completed priority c).2
| reachable_delete c id :
    reachable c → reachable (Mutation.delete id c).2
| reachable_update c id description priority :
    reachable c → reachable (Mutation.update id description priority c).2
| reachable_complete c id :
    reachable c → reachable (Mutation.complete id c).2.

(** * Facts about the store *)

Lemma matches_by_id id t : matches (by_id id) t ↔ _id t = id.
Proof.
  unfold matches, by_id. rewrite Forall_singleton. simpl.
  change (get "_id" t) with (BObjectId (_id t)).
  split; [by intros [= ->] | by intros ->].
Qed.

Lemma matches_by_completed b t : matches (by_completed b) t ↔ completed t = Some b.
Proof.
  unfold matches, by_completed. rewrite Forall_singleton. simpl.
  change (get "completed" t) with (from_option BBoolean BNull (completed t)).
  destruct (completed t) as [b'|]; simpl; split; try done.
  - by intros [= ->].
  - by intros [= ->].
Qed.

Lemma matches_all t : matches [] t.
Proof. by apply Forall_nil. Qed.

Lemma filter_all (l : list Todo) : filter (matches []) l = l.
Proof.
  induction l as [|t l IH]; [done|].
  rewrite filter_cons_True by apply matches_all. by rewrite IH.
Qed.

Lemma filter_by_completed b (l : list Todo) :
  filter (matches (by_completed b)) l = filter (λ t, completed t = Some b) l.
Proof. apply list_filter_iff. intros t. apply matches_by_completed. Qed.

Lemma remove_first_miss id l :
  id ∉ _id <$> l → remove_first (by_id id) l = None.
Proof.
  induction l as [|t l IH]; simpl; [done|].
  rewrite not_elem_of_cons. intros [Hne Hl].
  rewrite decide_False by (rewrite matches_by_id; congruence).
  by rewrite IH.
Qed.

Lemma filter_other_ids id (l : list Todo) :
  id ∉ _id <$> l → filter (λ x, _id x ≠ id) l = l.
Proof.
  induction l as [|t l IH]; simpl; [done|].
  rewrite not_elem_of_cons. intros [Hne Hl].
  rewrite filter_cons_True by congruence. by rewrite IH.
Qed.

Lemma remove_first_hit id l :
  NoDup (_id <$> l) → id ∈ _id <$> l →
  remove_first (by_id id) l = Some (filter (λ x, _id x ≠ id) l).
Proof.
  induction l as [|t l IH]; simpl.
  - by intros _ ?%elem_of_nil.
  - rewrite NoDup_cons. intros [Hfresh Hnd] Hin.
    destruct (decide (matches (by_id id) t)) as [Hm|Hm]; rewrite matches_by_id in Hm.
    + subst id. rewrite filter_cons_False by (intros ?; congruence).
      by rewrite filter_other_ids.
    + apply elem_of_cons in Hin as [?|Hin]; [congruence|].
      rewrite filter_cons_True by done. by rewrite IH.
Qed.

Lemma replace_id_miss id f (l : list Todo) :
  id ∉ _id <$> l → replace_id id f l = l.
Proof.
  unfold replace_id. induction l as [|t l IH]; csimpl; [done|].
  rewrite not_elem_of_cons. intros [Hne Hl].
  rewrite decide_False by congruence. by rewrite IH.
Qed.

Lemma replace_first_miss id f l :
  id ∉ _id <$> l → replace_first (by_id id) f l = None.
Proof.
  induction l as [|t l IH]; simpl; [done|].
  rewrite not_elem_of_cons. intros [Hne Hl].
  rewrite decide_False by (rewrite matches_by_id; congruence).
  by rewrite IH.
Qed.

Lemma replace_first_hit f l t :
  NoDup (_id <$> l) → t ∈ l →
  replace_first (by_id (_id t)) f l = Some (t, f t, replace_id (_id t) f l).
Proof.
  induction l as [|x l IH]; simpl.
  - by intros _ ?%elem_of_nil.
  - rewrite NoDup_cons. intros [Hfresh Hnd] Hin.
    destruct (decide (matches (by_id (_id t)) x)) as [Hm|Hm];
      rewrite matches_by_id in Hm.
    + assert (x = t) as ->.
      { apply elem_of_cons in Hin as [->|Hin]; [done|].
        destruct Hfresh. rewrite Hm. by apply list_elem_of_fmap_2. }
      unfold replace_id. csimpl. rewrite decide_True by done.
      fold (replace_id (_id t) f l). by rewrite replace_id_miss.
    + apply elem_of_cons in Hin as [->|Hin]; [done|].
      rewrite IH by done. unfold replace_id. csimpl.
      by rewrite decide_False by done.
Qed.

Lemma assign_id a t : _id (assign a t) = _id t.
Proof. by destruct a. Qed.

Lemma apply_update_id u t : _id (apply_update u t) = _id t.
Proof.
  unfold apply_update. revert t.
  induction u as [|a u IH]; intros t; simpl; [done|].
  by rewrite IH, assign_id.
Qed.

Lemma replace_id_ids id f (l : list Todo) :
  (∀ x, _id (f x) = _id x) → _id <$> replace_id id f l = _id <$> l.
Proof.
  intros Hf. unfold replace_id. rewrite <-list_fmap_compose.
  apply list_fmap_ext. intros _ x _. simpl. by case_decide.
Qed.

Lemma elem_of_replace_id id f (l : list Todo) x :
  (∀ y, _id (f y) = _id y) →
  x ∈ replace_id id f l → _id x = id → ∃ y, y ∈ l ∧ _id y = id ∧ x = f y.
Proof.
  intros Hf. unfold replace_id. rewrite list_elem_of_fmap.
  intros (y & -> & Hy) Hid. case_decide as Hd.
  - by exists y.
  - by destruct Hd.
Qed.

(** * The order of a sorted result *)

Global Instance bson_le_total : Total bson_le.
Proof.
  intros [] []; simpl; try lia.
  - apply (total String.le).
  - match goal with |- Is_true (implb ?x ?y) ∨ _ => destruct x, y; simpl; auto end.
Qed.

Global Instance bson_le_trans : Transitive bson_le.
Proof.
  intros [] [] []; simpl; try lia.
  - apply (transitivity (R := String.le)).
  - match goal with
    | |- Is_true (implb ?x ?y) → Is_true (implb ?y ?z) → _ =>
        destruct x, y, z; simpl; auto
    end.
Qed.

Global Instance before_total path d : Total (before path d).
Proof. intros t1 t2. destruct d; simpl; apply (total bson_le). Qed.

Global Instance before_trans path d : Transitive (before path d).
Proof.
  intros t1 t2 t3. destruct d; simpl; intros H12 H23.
  - by etrans.
  - by etrans.
Qed.

(** * [Query.todosList] *)

Section todosList_facts.
Variable D : Driver.

Lemma todosList_filter completed (l : list Todo) :
  filter
    (matches
       match or_default None completed with
       | Some c => [("completed"%string, BBoolean c)]
       | None => []
       end) l
  = filter (selected completed) l.
Proof.
  destruct completed as [| |b]; simpl.
  - rewrite filter_all. symmetry. induction l as [|t l IH]; [done|].
    rewrite filter_cons_True by done. by rewrite IH.
  - rewrite filter_all. symmetry. induction l as [|t l IH]; [done|].
    rewrite filter_cons_True by done. by rewrite IH.
  - apply (filter_by_completed b).
Qed.

(** Without [sortBy] no sort is asked for. *)
Lemma todosList_unsorted sortBy order completed c :
  sortBy = Absent ∨ sortBy = Null →
  Query.todosList D sortBy order completed c
  = (inr (filter (selected completed) (docs c)), c).
Proof.
  intros Hs. unfold Query.todosList, try_catch, find.
  destruct Hs; subst sortBy; simpl; by rewrite todosList_filter.
Qed.

(** With one, the store sorts when it can read the order word. *)
Lemma todosList_sorted path order completed c d :
  path ≠ ""%string →
  read_order D (or_default (Some "ASC"%string) order) = Some d →
  Query.todosList D (Given path) order completed c
  = (inr (merge_sort (before path d) (filter (selected completed) (docs c))), c).
Proof.
  intros Hs Hd. unfold Query.todosList, try_catch, find, Query.sort_options.
  rewrite decide_False by done. by rewrite Hd, todosList_filter.
Qed.

(** And the call fails when it cannot. *)
Lemma todosList_rejected path order completed c :
  path ≠ ""%string →
  read_order D (or_default (Some "ASC"%string) order) = None →
  Query.todosList D (Given path) order completed c
  = (inl (Apollo_error "Invalid sort value"), c).
Proof.
  intros Hs Hd. unfold Query.todosList, try_catch, find, Query.sort_options.
  rewrite decide_False by done. by rewrite Hd.
Qed.

(** An empty [sortBy] is itself handed to the store as the options. *)
Lemma todosList_bare order completed c :
  Query.todosList D (Given ""%string) order completed c
  = if bare_options D then (inr (filter (selected completed) (docs c)), c)
    else (inl (Apollo_error "Options must be an object"), c).
Proof.
  unfold Query.todosList, try_catch, find. simpl.
  destruct (bare_options D); [|done]. by rewrite todosList_filter.
Qed.

(** A request the store takes is answered with the selected documents. *)
Lemma todosList_accepted sortBy order completed c :
  accepted D sortBy order →
  ∃ l, Query.todosList D sortBy order completed c = (inr l, c)
       ∧ l ≡ₚ filter (selected completed) (docs c)
       ∧ (sortBy = Absent → l = filter (selected completed) (docs c)).
Proof.
  unfold accepted. destruct sortBy as [| |path]; simpl.
  - intros _. eexists. split; [apply todosList_unsorted; by left|]. by split.
  - intros _. eexists. split; [apply todosList_unsorted; by right|]. by split.
  - destruct (decide (path = ""%string)) as [->|Hpath].
    + intros Hbare. rewrite todosList_bare, Hbare. eexists. by repeat split.
    + intros [d Hd]. eexists. split; [by apply todosList_sorted|].
      split; [apply merge_sort_Permutation|done].
Qed.

(** Whatever the arguments, a list is made of selected documents of the
    collection, and the collection is left as it was. *)
Lemma todosList_elem_of sortBy order completed c l c' :
  Query.todosList D sortBy order completed c = (inr l, c') →
  c' = c ∧ l ≡ₚ filter (selected completed) (docs c).
Proof.
  destruct sortBy as [| |path].
  - rewrite todosList_unsorted by (by left). by intros [= <- <-].
  - rewrite todosList_unsorted by (by right). by intros [= <- <-].
  - destruct (decide (path = ""%string)) as [->|Hpath].
    + rewrite todosList_bare. destruct (bare_options D); [|done].
      by intros [= <- <-].
    + destruct (read_order D (or_default (Some "ASC"%string) order)) as [d|] eqn:Hd.
      * rewrite (todosList_sorted _ _ _ _ _ Hpath Hd). intros [= <- <-].
        split; [done|]. apply merge_sort_Permutation.
      * by rewrite (todosList_rejected _ _ _ _ Hpath Hd).
Qed.

End todosList_facts.

(** What a sort on each path of the schema compares. *)
Lemma get_paths t :
  get "_id" t = BObjectId (_id t)
  ∧ get "description" t = BString (description t)
  ∧ get "createdAt" t = match createdAt t with Some (Date_at ms) => BDate ms | _ => BNull end
  ∧ get "completed" t = from_option BBoolean BNull (completed t)
  ∧ get "priority" t = from_option BNumber BNull (priority t).
Proof. by repeat split. Qed.

Lemma paths_not_empty sortBy : sortBy ∈ paths → sortBy ≠ ""%string.
Proof.
  intros Hin ->. revert Hin. unfold paths. rewrite !elem_of_cons, elem_of_nil.
  intros [?|[?|[?|[?|[?|[]]]]]]; discriminate.
Qed.

Lemma filter_selected_Absent (l : list Todo) : filter (selected Absent) l = l.
Proof.
  induction l as [|t l IH]; [done|].
  rewrite filter_cons_True by done. by rewrite IH.
Qed.

(** C4. [todosList] with [completed: true] returns exactly the documents
    whose [completed] is [true], with [completed: false] exactly those whose
    [completed] is [false], and with [completed] left out every document: no
    filter is applied then. This holds under every sort request the store
    takes; without [sortBy] the documents come in their natural order. *)
Theorem todosList_completed_filter D c sortBy order :
  accepted D sortBy order →
  (∀ b : bool, ∃ l,
      Query.todosList D sortBy order (Given b) c = (inr l, c)
      ∧ l ≡ₚ filter (λ t, completed t = Some b) (docs c)
      ∧ (∀ t, t ∈ l ↔ t ∈ docs c ∧ completed t = Some b)
      ∧ (sortBy = Absent → l = filter (λ t, completed t = Some b) (docs c)))
  ∧ (∃ l,
      Query.todosList D sortBy order Absent c = (inr l, c)
      ∧ l ≡ₚ docs c
      ∧ (sortBy = Absent → l = docs c)).
Proof.
  intros Hsort. split.
  - intros b.
    destruct (todosList_accepted D sortBy order (Given b) c Hsort)
      as (l & Hcall & Hperm & Hnat).
    exists l. split; [done|]. split; [done|]. split; [|done].
    intros t. rewrite Hperm, list_elem_of_filter. simpl. tauto.
  - destruct (todosList_accepted D sortBy order Absent c Hsort)
      as (l & Hcall & Hperm & Hnat).
    rewrite filter_selected_Absent in Hperm, Hnat. by exists l.
Qed.

Lemma todosList_completed_filter_witness :
  accepted sample_driver (Given "priority"%string) (Given "DESC"%string)
  ∧ ∃ l, Query.todosList sample_driver (Given "priority"%string) (Given "DESC"%string)
           (Given true) sample = (inr l, sample)
         ∧ l ≡ₚ filter (λ t, completed t = Some true) (docs sample).
Proof.
  assert (accepted sample_driver (Given "priority"%string) (Given "DESC"%string))
    as Hsort by (by eexists).
  split; [exact Hsort|].
  destruct (todosList_completed_filter sample_driver sample
              (Given "priority"%string) (Given "DESC"%string) Hsort) as [Hb _].
  destruct (Hb true) as (l & Hcall & Hperm & _).
  by exists l.
Defined.

(** C7. When [sortBy] names a path of the schema, the list is sorted on
    that path: ascending when [order] is left out or is [ASC], descending
    when it is [DESC], the store reading the two words so. When [sortBy] is
    left out, the selected documents come in their natural order. *)
Theorem todosList_sort_order D c sortBy completed :
  read_order D (Some "ASC"%string) = Some Ascending →
  read_order D (Some "DESC"%string) = Some Descending →
  sortBy ∈ paths →
  (∀ order, order = Absent ∨ order = Given "ASC"%string →
     ∃ l, Query.todosList D (Given sortBy) order completed c = (inr l, c)
          ∧ StronglySorted (λ t1 t2, bson_le (get sortBy t1) (get sortBy t2)) l
          ∧ l ≡ₚ filter (selected completed) (docs c))
  ∧ (∃ l, Query.todosList D (Given sortBy) (Given "DESC"%string) completed c
          = (inr l, c)
          ∧ StronglySorted (λ t1 t2, bson_le (get sortBy t2) (get sortBy t1)) l
          ∧ l ≡ₚ filter (selected completed) (docs c))
  ∧ (∀ order,
       Query.todosList D Absent order completed c
       = (inr (filter (selected completed) (docs c)), c)).
Proof.
  intros Hasc Hdesc Hpath. apply paths_not_empty in Hpath. repeat split.
  - intros order Horder.
    exists (merge_sort (before sortBy Ascending) (filter (selected completed) (docs c))).
    repeat split.
    + apply todosList_sorted; [done|]. by destruct Horder; subst order.
    + apply (StronglySorted_merge_sort (before sortBy Ascending)).
    + apply merge_sort_Permutation.
  - exists (merge_sort (before sortBy Descending) (filter (selected completed) (docs c))).
    repeat split.
    + by apply todosList_sorted.
    + apply (StronglySorted_merge_sort (before sortBy Descending)).
    + apply merge_sort_Permutation.
  - intros order. apply todosList_unsorted. by left.
Qed.

Lemma todosList_sort_order_witness :
  read_order sample_driver (Some "ASC"%string) = Some Ascending
  ∧ read_order sample_driver (Some "DESC"%string) = Some Descending
  ∧ "priority"%string ∈ paths
  ∧ ∃ l, Query.todosList sample_driver (Given "priority"%string) (Given "DESC"%string)
           Absent sample = (inr l, sample)
         ∧ StronglySorted (λ t1 t2, bson_le (get "priority" t2) (get "priority" t1)) l.
Proof.
  assert ("priority"%string ∈ paths) as Hpath by (unfold paths; set_solver).
  repeat split; try done.
  destruct (todosList_sort_order sample_driver sample "priority" Absent
              eq_refl eq_refl Hpath) as (_ & (l & Hcall & Hsorted & _) & _).
  by exists l.
Defined.

Example todosList_by_priority :
  (Query.todosList sample_driver (Given "priority"%string) Absent Absent sample).1
  = inr [home; bike; milk].
Proof. reflexivity. Qed.

Example todosList_by_priority_desc :
  (Query.todosList sample_driver (Given "priority"%string) (Given "DESC"%string) Absent
     sample).1
  = inr [milk; bike; home].
Proof. reflexivity. Qed.

Example todosList_by_createdAt :
  (Query.todosList sample_driver (Given "createdAt"%string) (Given "ASC"%string) Absent
     sample).1
  = inr [bike; home; milk].
Proof. reflexivity. Qed.

Example todosList_open_only :
  (Query.todosList sample_driver Absent Absent (Given false) sample).1
  = inr [milk].
Proof. reflexivity. Qed.

Example todosList_unknown_order :
  (Query.todosList sample_driver (Given "priority"%string) (Given "up"%string) Absent
     sample).1
  = inl (Apollo_error "Invalid sort value").
Proof. reflexivity. Qed.

(** * The mutations *)

Lemma same_id (l : list Todo) x y :
  NoDup (_id <$> l) → x ∈ l → y ∈ l → _id x = _id y → x = y.
Proof.
  induction l as [|z l IH]; csimpl.
  - by intros _ ?%elem_of_nil.
  - rewrite NoDup_cons, !elem_of_cons. intros [Hfresh Hnd] [->|Hx] [->|Hy] Hid; try done.
    + destruct Hfresh. rewrite Hid. by apply list_elem_of_fmap_2.
    + destruct Hfresh. rewrite <-Hid. by apply list_elem_of_fmap_2.
    + by apply IH.
Qed.

Lemma replace_id_stored f (l : list Todo) t :
  NoDup (_id <$> l) → t ∈ l → (∀ y, _id (f y) = _id y) →
  f t ∈ replace_id (_id t) f l
  ∧ ∀ x, x ∈ replace_id (_id t) f l → _id x = _id t → x = f t.
Proof.
  intros Hnd Hin Hf. split.
  - unfold replace_id. apply list_elem_of_fmap. exists t.
    by rewrite decide_True by done.
  - intros x Hx Hid.
    destruct (elem_of_replace_id _ _ _ _ Hf Hx Hid) as (y & Hy & Hyid & ->).
    f_equal. by apply (same_id l).
Qed.

Lemma findOneAndUpdate_miss id u new c :
  id ∉ _id <$> docs c → findOneAndUpdate (by_id id) u new c = (inr None, c).
Proof. intros Hid. unfold findOneAndUpdate. by rewrite replace_first_miss. Qed.

Lemma findOneAndUpdate_hit u c t :
  consistent c → t ∈ docs c →
  findOneAndUpdate (by_id (_id t)) u true c
  = (inr (Some (apply_update u t)),
     mkCollection (replace_id (_id t) (apply_update u) (docs c)) (next_id c)).
Proof.
  intros [Hnd _] Hin. unfold findOneAndUpdate. by rewrite replace_first_hit.
Qed.

Lemma replace_id_consistent id u c :
  consistent c →
  consistent (mkCollection (replace_id id (apply_update u) (docs c)) (next_id c)).
Proof.
  intros [Hnd Hlt]. split; simpl.
  - by rewrite replace_id_ids by apply apply_update_id.
  - unfold replace_id. rewrite Forall_fmap. eapply Forall_impl; [exact Hlt|].
    intros x Hx. simpl. case_decide; [|done]. by rewrite apply_update_id.
Qed.

Lemma empty_consistent : consistent Store.empty.
Proof. split; simpl; [apply NoDup_nil_2 | apply Forall_nil_2]. Qed.

(** The identifier a new document gets is not in use. *)
Lemma next_id_fresh c : consistent c → next_id c ∉ _id <$> docs c.
Proof.
  intros [_ Hlt] (t & Hid & Hin)%list_elem_of_fmap.
  rewrite Forall_forall in Hlt. specialize (Hlt t Hin). lia.
Qed.

Lemma count_id_hit id (l : list Todo) :
  NoDup (_id <$> l) → id ∈ _id <$> l →
  length (filter (λ t, _id t = id) l) = 1%nat.
Proof.
  induction l as [|t l IH]; csimpl.
  - by intros _ ?%elem_of_nil.
  - rewrite NoDup_cons. intros [Hfresh Hnd] Hin.
    destruct (decide (_id t = id)) as [<-|Hne].
    + rewrite filter_cons_True by done. simpl. f_equal.
      clear IH Hin. induction l as [|x l IH]; [done|].
      csimpl in *. rewrite not_elem_of_cons in Hfresh. destruct Hfresh as [Hx Hl].
      apply NoDup_cons in Hnd as [_ Hnd].
      rewrite filter_cons_False by congruence. by apply IH.
    + rewrite filter_cons_False by done.
      apply elem_of_cons in Hin as [?|Hin]; [congruence|]. by apply IH.
Qed.

Lemma count_id_miss id (l : list Todo) :
  id ∉ _id <$> l → filter (λ t, _id t = id) l = [].
Proof.
  induction l as [|t l IH]; csimpl; [done|].
  rewrite not_elem_of_cons. intros [Hne Hl].
  rewrite filter_cons_False by congruence. by apply IH.
Qed.

Lemma length_filter_other_ids id (l : list Todo) :
  (length (filter (λ t, _id t ≠ id) l) + length (filter (λ t, _id t = id) l)
   = length l)%nat.
Proof.
  induction l as [|t l IH]; [done|].
  destruct (decide (_id t = id)) as [He|Hne].
  - rewrite filter_cons_False by (intros ?; congruence).
    rewrite filter_cons_True by done. simpl. lia.
  - rewrite filter_cons_True by done.
    rewrite filter_cons_False by done. simpl. lia.
Qed.

(** What [findOneAndUpdate] by identifier does to a document that
    exists: the updated document is returned and takes the place of the old
    one, the other documents stay. *)
Lemma findOneAndUpdate_existing u c t :
  consistent c → t ∈ docs c →
  let t' := apply_update u t in
  let c' := mkCollection (replace_id (_id t) (λ _, t') (docs c)) (next_id c) in
  findOneAndUpdate (by_id (_id t)) u true c = (inr (Some t'), c')
  ∧ t' ∈ docs c'
  ∧ (∀ x, x ∈ docs c' → _id x = _id t → x = t')
  ∧ consistent c'.
Proof.
  intros Hc Hin. simpl.
  assert (replace_id (_id t) (apply_update u) (docs c)
          = replace_id (_id t) (λ _, apply_update u t) (docs c)) as Hsame.
  { unfold replace_id. apply list_fmap_ext. intros i x Hx.
    case_decide as Hid; [|done]. f_equal.
    apply (same_id (docs c)); [apply Hc | by eapply list_elem_of_lookup_2 | done | done]. }
  destruct (replace_id_stored (apply_update u) (docs c) t) as [Hstored Huniq];
    [apply Hc | done | apply apply_update_id |].
  pose proof (replace_id_consistent (_id t) u c Hc) as Hc'.
  rewrite findOneAndUpdate_hit by done.
  rewrite Hsame in Hstored, Huniq, Hc' |- *.
  exact (conj eq_refl (conj Hstored (conj Huniq Hc'))).
Qed.

(** What [update] stores on a document that exists, whatever the
    [priority] argument. *)
Lemma update_existing c id description priority t :
  consistent c → t ∈ docs c → _id t = id →
  let validPriority :=
    match or_default (Some 1) priority with
    | Some p => if bool_decide (0 < p) then p else 1
    | None => 1
    end in
  let t' := mkTodo id description (createdAt t) (completed t) (Some validPriority) in
  let c' := mkCollection (replace_id id (λ _, t') (docs c)) (next_id c) in
  Mutation.update id description priority c = (inr (Some t'), c')
  ∧ t' ∈ docs c'
  ∧ (∀ x, x ∈ docs c' → _id x = id → x = t')
  ∧ consistent c'.
Proof.
  intros Hc Hin <-. simpl.
  set (validPriority := match or_default (Some 1) priority with
                        | Some p => if bool_decide (0 < p) then p else 1
                        | None => 1
                        end).
  destruct (findOneAndUpdate_existing
              [Set_description description; Set_priority validPriority] c t Hc Hin)
    as (Hcall & Hrest).
  split; [|exact Hrest].
  unfold Mutation.update, try_catch. fold validPriority.
  change [("_id"%string, BObjectId (_id t))] with (by_id (_id t)).
  by rewrite Hcall.
Qed.

(** What [complete] stores on a document that exists. *)
Lemma complete_existing c id t :
  consistent c → t ∈ docs c → _id t = id →
  let t' := mkTodo id (description t) (createdAt t) (Some true) (priority t) in
  let c' := mkCollection (replace_id id (λ _, t') (docs c)) (next_id c) in
  Mutation.complete id c = (inr (Some t'), c')
  ∧ t' ∈ docs c'
  ∧ (∀ x, x ∈ docs c' → _id x = id → x = t')
  ∧ consistent c'.
Proof.
  intros Hc Hin <-. simpl.
  destruct (findOneAndUpdate_existing [Set_completed true] c t Hc Hin)
    as (Hcall & Hrest).
  split; [|exact Hrest].
  unfold Mutation.complete, try_catch.
  change [("_id"%string, BObjectId (_id t))] with (by_id (_id t)).
  by rewrite Hcall.
Qed.

(** C1. On a document that exists, [update] with a priority that is zero
    or negative stores and returns priority 1, and with a positive priority
    stores and returns that priority: the call is not rejected. *)
Theorem update_coerces_priority c id description p t :
  consistent c → t ∈ docs c → _id t = id →
  ∃ t' c',
    Mutation.update id description (Given p) c = (inr (Some t'), c')
    ∧ t' ∈ docs c'
    ∧ (∀ x, x ∈ docs c' → _id x = id → x = t')
    ∧ _id t' = id
    ∧ (p ≤ 0 → priority t' = Some 1)
    ∧ (0 < p → priority t' = Some p).
Proof.
  intros Hc Hin Hid.
  destruct (update_existing c id description (Given p) t Hc Hin Hid)
    as (Hcall & Hstored & Huniq & _).
  eexists _, _. split; [exact Hcall|]. split; [exact Hstored|].
  split; [exact Huniq|]. split; [done|]. simpl. split; intros Hp.
  - by rewrite bool_decide_eq_false_2 by lia.
  - by rewrite bool_decide_eq_true_2 by lia.
Qed.

Lemma sample_consistent : consistent sample.
Proof. by apply (bool_decide_unpack _). Qed.

Lemma update_coerces_priority_witness :
  consistent sample ∧ home ∈ docs sample ∧ _id home = 1%N
  ∧ ∃ t' c',
      Mutation.update 1%N "call home today" (Given (-5)) sample = (inr (Some t'), c')
      ∧ t' ∈ docs c'
      ∧ priority t' = Some 1.
Proof.
  assert (home ∈ docs sample) as Hin by apply list_elem_of_further, list_elem_of_here.
  split; [apply sample_consistent|]. split; [exact Hin|]. split; [reflexivity|].
  destruct (update_coerces_priority sample 1%N "call home today" (-5) home
              sample_consistent Hin eq_refl)
    as (t' & c' & Hcall & Hstored & _ & _ & Hneg & _).
  exists t', c'. split; [exact Hcall|]. split; [exact Hstored|]. apply Hneg. lia.
Defined.

Example update_positive_priority :
  (Mutation.update 1%N "call home today" (Given 4) sample).1
  = inr (Some (mkTodo 1%N "call home today" (Some (Date_at 10)) (Some true) (Some 4))).
Proof. reflexivity. Qed.

Example update_null_priority :
  (Mutation.update 1%N "call home today" Null sample).1
  = inr (Some (mkTodo 1%N "call home today" (Some (Date_at 10)) (Some true) (Some 1))).
Proof. reflexivity. Qed.

(** C10. On a document that exists, [update] without a priority stores
    priority 1, whatever priority the document had. *)
Theorem update_without_priority c id description t :
  consistent c → t ∈ docs c → _id t = id →
  ∃ t' c',
    Mutation.update id description Absent c = (inr (Some t'), c')
    ∧ t' ∈ docs c'
    ∧ (∀ x, x ∈ docs c' → _id x = id → x = t')
    ∧ _id t' = id
    ∧ priority t' = Some 1.
Proof.
  intros Hc Hin Hid.
  destruct (update_existing c id description Absent t Hc Hin Hid)
    as (Hcall & Hstored & Huniq & _).
  eexists _, _. split; [exact Hcall|]. split; [exact Hstored|]. by split.
Qed.

Lemma update_without_priority_witness :
  consistent sample ∧ milk ∈ docs sample ∧ _id milk = 0%N
  ∧ ∃ t' c',
      Mutation.update 0%N "buy oat milk" Absent sample = (inr (Some t'), c')
      ∧ t' ∈ docs c'
      ∧ priority milk = Some 3
      ∧ priority t' = Some 1.
Proof.
  assert (milk ∈ docs sample) as Hin by apply list_elem_of_here.
  split; [apply sample_consistent|]. split; [exact Hin|]. split; [reflexivity|].
  destruct (update_without_priority sample 0%N "buy oat milk" milk
              sample_consistent Hin eq_refl)
    as (t' & c' & Hcall & Hstored & _ & _ & Hone).
  by exists t', c'.
Defined.

Lemma update_unknown c id description priority :
  id ∉ _id <$> docs c → Mutation.update id description priority c = (inr None, c).
Proof.
  intros Hid. unfold Mutation.update, try_catch.
  change [("_id"%string, BObjectId id)] with (by_id id).
  by rewrite findOneAndUpdate_miss.
Qed.

Lemma complete_unknown c id :
  id ∉ _id <$> docs c → Mutation.complete id c = (inr None, c).
Proof.
  intros Hid. unfold Mutation.complete, try_catch.
  change [("_id"%string, BObjectId id)] with (by_id id).
  by rewrite findOneAndUpdate_miss.
Qed.

(** What a request does when the store refuses its [id]: the error of
    the cast is rethrown and the collection is left as it was. *)
Lemma request_refused castObjectId c id e description priority :
  castObjectId id = inl e →
  Request.update castObjectId id description priority c
  = (inl (Apollo_error (message e)), c)
  ∧ Request.complete castObjectId id c = (inl (Apollo_error (message e)), c)
  ∧ Request.delete castObjectId id c = (inl (Apollo_error (message e)), c).
Proof.
  intros He. unfold Request.update, Request.complete, Request.delete,
    Request.filtered_on_id. by rewrite He.
Qed.

(** What a request does when the store takes its [id]: what the
    mutation does on the identifier. *)
Lemma request_cast castObjectId c id oid description priority :
  castObjectId id = inr oid →
  Request.update castObjectId id description priority c
  = Mutation.update oid description priority c
  ∧ Request.complete castObjectId id c = Mutation.complete oid c
  ∧ Request.delete castObjectId id c = Mutation.delete oid c.
Proof.
  intros He. unfold Request.update, Request.complete, Request.delete,
    Request.filtered_on_id. by rewrite He.
Qed.

(** C2, as amended. With an [id] that the store takes for an identifier
    and that no document carries, [update] and [complete] each answer
    [null], not an error, and leave the collection as it was. *)
Theorem update_complete_unknown_id castObjectId c id oid description priority :
  castObjectId id = inr oid →
  oid ∉ _id <$> docs c →
  Request.update castObjectId id description priority c = (inr None, c)
  ∧ Request.complete castObjectId id c = (inr None, c).
Proof.
  intros Hcast Hid.
  destruct (request_cast castObjectId c id oid description priority Hcast)
    as (-> & -> & _).
  split.
  - by apply update_unknown.
  - by apply complete_unknown.
Qed.

Lemma update_complete_unknown_id_witness :
  sample_cast "000000000000000000000007" = inr 7%N
  ∧ (7%N ∉ _id <$> docs sample)
  ∧ Request.update sample_cast "000000000000000000000007" "x" (Given 2) sample
    = (inr None, sample)
  ∧ Request.complete sample_cast "000000000000000000000007" sample = (inr None, sample).
Proof.
  assert (7%N ∉ _id <$> docs sample) as Hid.
  { apply (bool_decide_unpack _). reflexivity. }
  split; [reflexivity|]. split; [exact Hid|].
  exact (update_complete_unknown_id sample_cast sample "000000000000000000000007" 7%N
           "x" (Given 2) eq_refl Hid).
Defined.

(** C2 as it was stated fails: the [id] ["7"] is carried by no document
    of the sample, the store refuses it, and [update] and [complete] raise
    an error where the claim has them answer [null]. *)
Lemma update_complete_unknown_id_counterexample :
  (∀ t, t ∈ docs sample → sample_cast "7" ≠ inr (_id t))
  ∧ (∃ e, Request.update sample_cast "7" "x" (Given 2) sample = (inl e, sample))
  ∧ (∃ e, Request.complete sample_cast "7" sample = (inl e, sample))
  ∧ Request.update sample_cast "7" "x" (Given 2) sample ≠ (inr None, sample)
  ∧ Request.complete sample_cast "7" sample ≠ (inr None, sample).
Proof.
  split; [by intros t _|].
  split; [by eexists|]. split; [by eexists|]. by split.
Qed.

(** C6. On a document that exists, [complete] stores and returns the
    document with [completed] set to [true] and with its identifier,
    description, creation date and priority as they were. *)
Theorem complete_sets_completed_only c id t :
  consistent c → t ∈ docs c → _id t = id →
  ∃ t' c',
    Mutation.complete id c = (inr (Some t'), c')
    ∧ t' ∈ docs c'
    ∧ (∀ x, x ∈ docs c' → _id x = id → x = t')
    ∧ completed t' = Some true
    ∧ _id t' = _id t
    ∧ description t' = description t
    ∧ createdAt t' = createdAt t
    ∧ priority t' = priority t.
Proof.
  intros Hc Hin Hid.
  destruct (complete_existing c id t Hc Hin Hid) as (Hcall & Hstored & Huniq & _).
  eexists _, _. split; [exact Hcall|]. split; [exact Hstored|].
  split; [exact Huniq|]. by repeat split.
Qed.

Lemma complete_sets_completed_only_witness :
  consistent sample ∧ milk ∈ docs sample ∧ _id milk = 0%N
  ∧ ∃ t' c',
      Mutation.complete 0%N sample = (inr (Some t'), c')
      ∧ completed t' = Some true
      ∧ description t' = "buy milk"%string
      ∧ priority t' = Some 3.
Proof.
  assert (milk ∈ docs sample) as Hin by apply list_elem_of_here.
  split; [apply sample_consistent|]. split; [exact Hin|]. split; [reflexivity|].
  destruct (complete_sets_completed_only sample 0%N milk sample_consistent Hin eq_refl)
    as (t' & c' & Hcall & _ & _ & Hdone & _ & Hdesc & _ & Hprio).
  by exists t', c'.
Defined.

Example complete_milk :
  Mutation.complete 0%N sample
  = (inr (Some (mkTodo 0%N "buy milk" (Some (Date_at 30)) (Some true) (Some 3))),
     mkCollection
       [mkTodo 0%N "buy milk" (Some (Date_at 30)) (Some true) (Some 3); home; bike] 3%N).
Proof. reflexivity. Qed.

(** [delete] answers whether [deleteOne] took a document out. *)
Lemma delete_call c id :
  Mutation.delete id c
  = match remove_first (by_id id) (docs c) with
    | Some l => (inr true, mkCollection l (next_id c))
    | None => (inr false, c)
    end.
Proof.
  unfold Mutation.delete, try_catch, mbind, M_bind, deleteOne.
  change [("_id"%string, BObjectId id)] with (by_id id).
  by destruct (remove_first (by_id id) (docs c)).
Qed.

Lemma delete_consistent c id b c' :
  consistent c → Mutation.delete id c = (inr b, c') → consistent c'.
Proof.
  intros [Hnd Hlt]. rewrite delete_call.
  destruct (decide (id ∈ _id <$> docs c)) as [Hin|Hout].
  - rewrite remove_first_hit by done. intros [= <- <-]. split; simpl.
    + eapply sublist_NoDup; [exact Hnd|].
      apply fmap_sublist, sublist_filter.
    + rewrite Forall_forall in Hlt. apply Forall_forall.
      intros x [_ Hx]%list_elem_of_filter. by apply Hlt.
  - rewrite remove_first_miss by done. by intros [= <- <-].
Qed.

(** What [delete] does on an identifier. *)
Lemma delete_by_identifier c id :
  consistent c →
  ∃ (b : bool) c',
    Mutation.delete id c = (inr b, c')
    ∧ (id ∈ _id <$> docs c → b = true)
    ∧ (id ∉ _id <$> docs c → b = false ∧ c' = c)
    ∧ (b = true ↔
         length (filter (λ t, _id t = id) (docs c)) = 1%nat
         ∧ docs c' = filter (λ t, _id t ≠ id) (docs c)
         ∧ (length (docs c') + 1 = length (docs c))%nat)
    ∧ (b = true →
         ∀ D sortBy order completed l c'',
           Query.todosList D sortBy order completed c' = (inr l, c'') →
           id ∉ _id <$> l).
Proof.
  intros [Hnd Hlt]. rewrite delete_call.
  destruct (decide (id ∈ _id <$> docs c)) as [Hin|Hout].
  - rewrite remove_first_hit by done.
    pose proof (count_id_hit id (docs c) Hnd Hin) as Hone.
    pose proof (length_filter_other_ids id (docs c)) as Hlen.
    eexists true, _. split; [done|]. simpl. repeat split; try done.
    + lia.
    + intros _ D sortBy order completed l c'' Hlist.
      apply todosList_elem_of in Hlist as [_ Hperm]. simpl in Hperm.
      intros (t & Hid & Ht)%list_elem_of_fmap.
      rewrite Hperm in Ht.
      apply list_elem_of_filter in Ht as [_ Ht].
      apply list_elem_of_filter in Ht as [Hne _]. by destruct Hne.
  - rewrite remove_first_miss by done.
    eexists false, _. split; [done|]. repeat split; try done.
    intros (Hone & _). by rewrite count_id_miss in Hone.
Qed.

(** C3, as amended. On an [id] that the store takes for an identifier,
    [delete] answers a boolean: [true] when a document carries the
    identifier, [false], with nothing changed, when none does; it is [true]
    exactly when one document carried the identifier and was taken out of
    the collection; after a [true] no list contains a document with that
    identifier. *)
Theorem delete_reports_removal castObjectId c id oid :
  consistent c →
  castObjectId id = inr oid →
  ∃ (b : bool) c',
    Request.delete castObjectId id c = (inr b, c')
    ∧ (oid ∈ _id <$> docs c → b = true)
    ∧ (oid ∉ _id <$> docs c → b = false ∧ c' = c)
    ∧ (b = true ↔
         length (filter (λ t, _id t = oid) (docs c)) = 1%nat
         ∧ docs c' = filter (λ t, _id t ≠ oid) (docs c)
         ∧ (length (docs c') + 1 = length (docs c))%nat)
    ∧ (b = true →
         ∀ D sortBy order completed l c'',
           Query.todosList D sortBy order completed c' = (inr l, c'') →
           oid ∉ _id <$> l).
Proof.
  intros Hc Hcast.
  destruct (request_cast castObjectId c id oid "" Absent Hcast) as (_ & _ & ->).
  by apply delete_by_identifier.
Qed.

Lemma delete_reports_removal_witness :
  consistent sample
  ∧ sample_cast "000000000000000000000001" = inr 1%N
  ∧ ∃ c', Request.delete sample_cast "000000000000000000000001" sample = (inr true, c')
          ∧ docs c' = [milk; bike]
          ∧ ∀ l c'', Query.todosList sample_driver Absent Absent Absent c' = (inr l, c'') →
                     1%N ∉ _id <$> l.
Proof.
  split; [apply sample_consistent|]. split; [reflexivity|].
  destruct (delete_reports_removal sample_cast sample "000000000000000000000001" 1%N
              sample_consistent eq_refl)
    as (b & c' & Hcall & Htrue & _ & Hiff & Hgone).
  assert (1%N ∈ _id <$> docs sample) as Hin.
  { apply (bool_decide_unpack _). reflexivity. }
  pose proof (Htrue Hin) as ->.
  exists c'. split; [exact Hcall|]. split.
  - by rewrite (proj1 (proj2 (proj1 Hiff eq_refl))).
  - intros l c''. by apply Hgone.
Defined.

(** C3 as it was stated fails: the [id] ["7"] is carried by no document
    of the sample, the store refuses it, and [delete] raises an error where
    the claim has it answer [false]. *)
Lemma delete_reports_removal_counterexample :
  (∀ t, t ∈ docs sample → sample_cast "7" ≠ inr (_id t))
  ∧ (∃ e, Request.delete sample_cast "7" sample = (inl e, sample))
  ∧ (∀ b c', Request.delete sample_cast "7" sample ≠ (inr b, c')).
Proof.
  split; [by intros t _|]. split; [by eexists|]. by intros b c'.
Qed.

Example delete_twice :
  (Mutation.delete 1%N sample).1 = inr true
  ∧ (Mutation.delete 1%N (Mutation.delete 1%N sample).2).1 = inr false.
Proof. by split. Qed.

(** [create] stores what it was given, with the defaults, unless the
    creation date is not a date. *)
Lemma create_call c now description createdAt completed priority :
  createdAt ≠ Given Invalid_Date →
  let t := mkTodo (next_id c) description
             (or_default (Some (Date_at now)) createdAt)
             (or_default (Some false) completed)
             (or_default (Some 1) priority) in
  Mutation.create now description createdAt completed priority c
  = (inr t, mkCollection (docs c ++ [t]) (N.succ (next_id c))).
Proof.
  intros Hdate. unfold Mutation.create, try_catch, mbind, M_bind, new_Todo, save.
  simpl. rewrite decide_False; [done|].
  destruct createdAt as [| |[]]; simpl; congruence.
Qed.

Lemma create_rejected c now description completed priority :
  Mutation.create now description (Given Invalid_Date) completed priority c
  = (inl (Apollo_error "Todo validation failed"),
     mkCollection (docs c) (N.succ (next_id c))).
Proof. reflexivity. Qed.

Lemma create_consistent c t :
  consistent c → _id t = next_id c →
  consistent (mkCollection (docs c ++ [t]) (N.succ (next_id c))).
Proof.
  intros Hc Hid. pose proof (next_id_fresh c Hc) as Hfresh.
  destruct Hc as [Hnd Hlt]. split; simpl.
  - rewrite fmap_app. apply NoDup_app. split; [done|]. split.
    + intros x Hx. csimpl. rewrite list_elem_of_singleton. intros ->.
      by rewrite Hid in Hx.
    + csimpl. apply NoDup_singleton.
  - apply Forall_app. split.
    + eapply Forall_impl; [exact Hlt|]. intros x Hx. simpl in Hx. lia.
    + apply Forall_singleton. lia.
Qed.

(** C5. [create] gives the arguments left out their defaults:
    [completed] is [false], [priority] is 1 and [createdAt] is the time
    of the call; it returns the document it stored, which carries the
    identifier the store assigned, one no other document has. *)
Theorem create_defaults c now description createdAt completed priority :
  consistent c → createdAt ≠ Given Invalid_Date →
  ∃ t c',
    Mutation.create now description createdAt completed priority c = (inr t, c')
    ∧ docs c' = docs c ++ [t]
    ∧ _id t = next_id c
    ∧ (_id t ∉ _id <$> docs c)
    ∧ consistent c'
    ∧ Store.description t = description
    ∧ (completed = Absent → Store.completed t = Some false)
    ∧ (priority = Absent → Store.priority t = Some 1)
    ∧ (createdAt = Absent → Store.createdAt t = Some (Date_at now)).
Proof.
  intros Hc Hdate. eexists _, _.
  split; [by apply create_call|]. simpl.
  split; [done|]. split; [done|]. split; [by apply next_id_fresh|].
  split; [by apply create_consistent|]. split; [done|].
  repeat split; by intros ->.
Qed.

Lemma create_defaults_witness :
  consistent sample ∧ (Absent : arg Date) ≠ Given Invalid_Date
  ∧ ∃ c', Mutation.create 1700000000000 "buy milk" Absent Absent Absent sample
          = (inr (mkTodo 3%N "buy milk" (Some (Date_at 1700000000000)) (Some false) (Some 1)),
             c').
Proof.
  assert ((Absent : arg Date) ≠ Given Invalid_Date) as Hdate by discriminate.
  split; [apply sample_consistent|]. split; [exact Hdate|].
  destruct (create_defaults sample 1700000000000 "buy milk" Absent Absent Absent
              sample_consistent Hdate)
    as (t & c' & Hcall & _ & Hid & _ & _ & Hdesc & Hdone & Hprio & Hnow).
  exists c'. rewrite Hcall. f_equal. f_equal.
  destruct t as [i d ca co pr]. simpl in *.
  rewrite Hid, Hdesc, (Hdone eq_refl), (Hprio eq_refl), (Hnow eq_refl).
  reflexivity.
Defined.

(** C9. [create] stores the priority it is given as it is, also when it
    is zero or negative: a document with a priority under 1 can come out of
    it. *)
Theorem create_keeps_priority c now description createdAt completed p :
  createdAt ≠ Given Invalid_Date →
  ∃ t c',
    Mutation.create now description createdAt completed (Given p) c = (inr t, c')
    ∧ t ∈ docs c'
    ∧ priority t = Some p
    ∧ (p < 1 → ∃ x q, x ∈ docs c' ∧ priority x = Some q ∧ q < 1).
Proof.
  intros Hdate. eexists _, _.
  split; [by apply create_call|]. simpl.
  assert (∀ t : Todo, t ∈ docs c ++ [t]) as Hlast.
  { intros t. apply elem_of_app. right. apply list_elem_of_here. }
  split; [apply Hlast|]. split; [done|].
  intros Hp. eexists _, p. split; [apply Hlast|]. by split.
Qed.

Lemma create_keeps_priority_witness :
  Given (Date_at 4) ≠ Given Invalid_Date
  ∧ ∃ t c',
      Mutation.create 5 "sleep" (Given (Date_at 4)) Null (Given (-3)) Store.empty
      = (inr t, c')
      ∧ t ∈ docs c'
      ∧ priority t = Some (-3).
Proof.
  assert (Given (Date_at 4) ≠ Given Invalid_Date) as Hdate by discriminate.
  split; [exact Hdate|].
  destruct (create_keeps_priority Store.empty 5 "sleep" (Given (Date_at 4)) Null (-3) Hdate)
    as (t & c' & Hcall & Hin & Hprio & _).
  by exists t, c'.
Defined.

Example create_then_list :
  (Query.todosList sample_driver Absent Absent Absent
     (Mutation.create 5 "sleep" Absent Absent (Given 0) Store.empty).2).1
  = inr [mkTodo 0%N "sleep" (Some (Date_at 5)) (Some false) (Some 0)].
Proof. reflexivity. Qed.

Example create_invalid_date :
  (Mutation.create 5 "sleep" (Given Invalid_Date) Absent Absent sample).1
  = inl (Apollo_error "Todo validation failed").
Proof. reflexivity. Qed.

(** * The scalar [Date] *)

Section scalar_facts.
Variable other_forms : string → number.

(** Output: a date is sent as its time value, milliseconds since the
    epoch. *)
Lemma serialize_epoch t : Scalar.serialize (Date_at t) = Num t.
Proof. reflexivity. Qed.

(** Input through a variable: a number is taken for milliseconds since
    the epoch. *)
Lemma parseValue_number t :
  Z.abs t ≤ 8640000000000000 →
  Scalar.parseValue other_forms (VNumber (Num t)) = Date_at t.
Proof.
  intros Ht. unfold Scalar.parseValue, new_Date. simpl.
  by rewrite bool_decide_eq_true_2.
Qed.

Lemma serialize_parseValue t :
  Z.abs t ≤ 8640000000000000 →
  Scalar.parseValue other_forms (VNumber (Scalar.serialize (Date_at t))) = Date_at t.
Proof. intros Ht. rewrite serialize_epoch. by apply parseValue_number. Qed.

Lemma digit_range c d : digit c = Some d → 0 ≤ d ≤ 9.
Proof.
  unfold digit. case_bool_decide as Hc; [|done]. intros [= <-]. lia.
Qed.

Lemma year_only_range s y : year_only s = Some y → 0 ≤ y ≤ 9999.
Proof.
  destruct s as [|a [|b [|c [|d [|]]]]]; simpl; try done.
  destruct (digit a) as [da|] eqn:Ha; [|done].
  destruct (digit b) as [db|] eqn:Hb; [|done].
  destruct (digit c) as [dc|] eqn:Hc; [|done].
  destruct (digit d) as [dd|] eqn:Hd; [|done].
  apply digit_range in Ha, Hb, Hc, Hd. intros [= <-]. lia.
Qed.

Lemma TimeFromYear_range y :
  0 ≤ y ≤ 9999 → Z.abs (TimeFromYear y) ≤ 8640000000000000 ∧ TimeFromYear y ≠ y.
Proof.
  intros Hy. unfold TimeFromYear, DayFromYear, msPerDay.
  pose proof (Z.div_mod (y - 1969) 4 ltac:(lia)).
  pose proof (Z.mod_pos_bound (y - 1969) 4 ltac:(lia)).
  pose proof (Z.div_mod (y - 1901) 100 ltac:(lia)).
  pose proof (Z.mod_pos_bound (y - 1901) 100 ltac:(lia)).
  pose proof (Z.div_mod (y - 1601) 400 ltac:(lia)).
  pose proof (Z.mod_pos_bound (y - 1601) 400 ltac:(lia)).
  lia.
Qed.

(** Input through a literal: the text of a four-digit integer is read as
    a year, not as milliseconds. *)
Lemma parseLiteral_year s y :
  year_only s = Some y →
  Scalar.parseLiteral other_forms (Scalar.IntValue s) = Some (Date_at (TimeFromYear y))
  ∧ TimeFromYear y ≠ y.
Proof.
  intros Hs. pose proof (year_only_range s y Hs) as Hy.
  destruct (TimeFromYear_range y Hy) as [Hclip Hne]. split; [|done].
  unfold Scalar.parseLiteral, new_Date, Date_parse, TimeClip. rewrite Hs.
  by rewrite bool_decide_eq_true_2.
Qed.

(** C8. The integer literal [2019] becomes the first instant of the year
    2019, while the number 2019 sent through a variable becomes 2019 ms
    after the epoch, which is also what a date at 2019 ms is sent out
    as. *)
Theorem parseLiteral_takes_a_year :
  Scalar.parseLiteral other_forms (Scalar.IntValue "2019") = Some (Date_at 1546300800000)
  ∧ Scalar.parseValue other_forms (VNumber (Num 2019)) = Date_at 2019
  ∧ Scalar.serialize (Date_at 2019) = Num 2019.
Proof. by repeat split. Qed.

End scalar_facts.

(** * The collections the service can be in *)

Lemma known_id (l : list Todo) id : id ∈ _id <$> l → ∃ t, t ∈ l ∧ _id t = id.
Proof. intros (t & -> & Ht)%list_elem_of_fmap. by exists t. Qed.

(** Every collection the mutations produce keeps identifiers unique. *)
Lemma reachable_consistent c : reachable c → consistent c.
Proof.
  induction 1 as [|c now description createdAt completed priority _ IH
                  |c id _ IH|c id description priority _ IH|c id _ IH].
  - apply empty_consistent.
  - destruct (decide (createdAt = Given Invalid_Date)) as [->|Hdate].
    + rewrite create_rejected. simpl. destruct IH as [Hnd Hlt]. split; [done|].
      eapply Forall_impl; [exact Hlt|]. intros x Hx. simpl in *. lia.
    + rewrite create_call by done. simpl. by apply create_consistent.
  - destruct (Mutation.delete id c) as [[e|b] c'] eqn:Hcall.
    + rewrite delete_call in Hcall. by destruct (remove_first _ _).
    + by eapply delete_consistent.
  - destruct (decide (id ∈ _id <$> docs c)) as [Hin|Hout].
    + apply known_id in Hin as (t & Ht & Hid).
      destruct (update_existing c id description priority t IH Ht Hid)
        as (-> & _ & _ & Hc'). exact Hc'.
    + by rewrite update_unknown.
  - destruct (decide (id ∈ _id <$> docs c)) as [Hin|Hout].
    + apply known_id in Hin as (t & Ht & Hid).
      destruct (complete_existing c id t IH Ht Hid) as (-> & _ & _ & Hc'). exact Hc'.
    + by rewrite complete_unknown.
Qed.

(** * How the resolvers compose *)

Lemma replace_id_const_twice id a b (l : list Todo) :
  _id a = id →
  replace_id id (λ _, b) (replace_id id (λ _, a) l) = replace_id id (λ _, b) l.
Proof.
  intros Ha. unfold replace_id. rewrite <-list_fmap_compose.
  apply list_fmap_ext. intros i x _. simpl.
  destruct (decide (_id x = id)) as [Hx|Hx].
  - by rewrite decide_True.
  - by rewrite decide_False.
Qed.

Lemma replace_id_same id a (l : list Todo) :
  a ∈ l → NoDup (_id <$> l) → _id a = id → replace_id id (λ _, a) l = l.
Proof.
  intros Hin Hnd Ha. unfold replace_id.
  rewrite <-(list_fmap_id l) at 2. apply list_fmap_ext. intros i x Hx. simpl.
  case_decide as Hid; [|done].
  apply (same_id l); [done | done | by eapply list_elem_of_lookup_2 | congruence].
Qed.

Lemma replace_id_length id f (l : list Todo) : length (replace_id id f l) = length l.
Proof. unfold replace_id. apply length_fmap. Qed.

Lemma replace_id_others id f (l : list Todo) x :
  x ∈ l → _id x ≠ id → x ∈ replace_id id f l.
Proof.
  intros Hx Hid. unfold replace_id. apply list_elem_of_fmap. exists x.
  by rewrite decide_False.
Qed.

Lemma filter_other_ids_gone id (l : list Todo) :
  id ∉ _id <$> filter (λ x, _id x ≠ id) l.
Proof.
  intros (x & Hid & Hx)%list_elem_of_fmap.
  apply list_elem_of_filter in Hx as [Hne _]. by destruct Hne.
Qed.

Lemma replace_id_const_ids id a (l : list Todo) :
  _id a = id → _id <$> replace_id id (λ _, a) l = _id <$> l.
Proof.
  intros Ha. unfold replace_id. rewrite <-list_fmap_compose.
  apply list_fmap_ext. intros i x _. simpl. case_decide; congruence.
Qed.

Lemma replace_id_const_others id a (l : list Todo) x :
  _id a = id → x ∈ replace_id id (λ _, a) l → _id x ≠ id → x ∈ l.
Proof.
  intros Ha. unfold replace_id. rewrite list_elem_of_fmap.
  intros (y & -> & Hy) Hid. case_decide; [congruence|done].
Qed.

(** X1. Whatever the [priority] argument of [update] is (left out,
    [null], or any integer), the document stored under the identifier has
    a priority of at least 1 afterwards; an explicit [null] gives 1. *)
Theorem update_priority_at_least_one c id description priority t :
  consistent c → t ∈ docs c → _id t = id →
  ∃ t' c' q,
    Mutation.update id description priority c = (inr (Some t'), c')
    ∧ t' ∈ docs c'
    ∧ (∀ x, x ∈ docs c' → _id x = id → Store.priority x = Some q)
    ∧ 1 ≤ q
    ∧ (priority = Null → q = 1).
Proof.
  intros Hc Hin Hid.
  destruct (update_existing c id description priority t Hc Hin Hid)
    as (Hcall & Hstored & Huniq & _).
  eexists _, _, _. split; [exact Hcall|]. split; [exact Hstored|].
  split; [|split].
  - intros x Hx Hxid. by rewrite (Huniq x Hx Hxid).
  - destruct priority as [| |p]; simpl; try lia. case_bool_decide; lia.
  - by intros ->.
Qed.

Lemma update_priority_at_least_one_witness :
  consistent sample ∧ home ∈ docs sample ∧ _id home = 1%N
  ∧ ∃ t' c',
      Mutation.update 1%N "call home" Null sample = (inr (Some t'), c')
      ∧ Store.priority home = Some (-2)
      ∧ Store.priority t' = Some 1.
Proof.
  assert (home ∈ docs sample) as Hin by apply list_elem_of_further, list_elem_of_here.
  split; [apply sample_consistent|]. split; [exact Hin|]. split; [reflexivity|].
  destruct (update_priority_at_least_one sample 1%N "call home" Null home
              sample_consistent Hin eq_refl)
    as (t' & c' & q & Hcall & Hstored & Hall & _ & Hnull).
  exists t', c'. split; [exact Hcall|]. split; [reflexivity|].
  rewrite <-(Hnull eq_refl). apply Hall; [exact Hstored|].
  vm_compute in Hcall. by injection Hcall as <- _.
Defined.

(** X2. [update] stores and returns the document with the description it
    is given and with its creation date and completion flag as they were;
    the other documents, the order of the identifiers and the next
    identifier stay as they were. *)
Theorem update_leaves_the_rest c id description priority t :
  consistent c → t ∈ docs c → _id t = id →
  ∃ t' c',
    Mutation.update id description priority c = (inr (Some t'), c')
    ∧ t' ∈ docs c'
    ∧ (∀ x, x ∈ docs c' → _id x = id → x = t')
    ∧ _id t' = id
    ∧ Store.description t' = description
    ∧ createdAt t' = createdAt t
    ∧ completed t' = completed t
    ∧ _id <$> docs c' = _id <$> docs c
    ∧ next_id c' = next_id c
    ∧ (∀ x, _id x ≠ id → x ∈ docs c' ↔ x ∈ docs c).
Proof.
  intros Hc Hin Hid.
  destruct (update_existing c id description priority t Hc Hin Hid)
    as (Hcall & Hstored & Huniq & _).
  eexists _, _. split; [exact Hcall|]. split; [exact Hstored|].
  split; [exact Huniq|]. simpl.
  split; [done|]. split; [done|]. split; [done|]. split; [done|].
  split; [by apply replace_id_const_ids|]. split; [done|].
  intros x Hx. split.
  - intros Hin'. refine (replace_id_const_others id _ _ x _ Hin' Hx). reflexivity.
  - intros Hin'. by apply replace_id_others.
Qed.

Lemma update_leaves_the_rest_witness :
  consistent sample ∧ home ∈ docs sample ∧ _id home = 1%N
  ∧ ∃ t' c',
      Mutation.update 1%N "call back" (Given 7) sample = (inr (Some t'), c')
      ∧ t' ∈ docs c'
      ∧ Store.description t' = "call back"%string
      ∧ completed t' = Some true
      ∧ (milk ∈ docs c' ∧ bike ∈ docs c').
Proof.
  assert (home ∈ docs sample) as Hin by apply list_elem_of_further, list_elem_of_here.
  split; [apply sample_consistent|]. split; [exact Hin|]. split; [reflexivity|].
  destruct (update_leaves_the_rest sample 1%N "call back" (Given 7) home
              sample_consistent Hin eq_refl)
    as (t' & c' & Hcall & Hstored & _ & _ & Hdesc & _ & Hdone & _ & _ & Hothers).
  exists t', c'. split; [exact Hcall|]. split; [exact Hstored|].
  split; [exact Hdesc|]. split; [exact Hdone|]. split.
  - apply Hothers; [discriminate|]. apply list_elem_of_here.
  - apply Hothers; [discriminate|].
    apply list_elem_of_further, list_elem_of_further, list_elem_of_here.
Defined.

(** X3. [complete] leaves the other documents, the order of the
    identifiers, the number of documents and the next identifier as they
    were. *)
Theorem complete_leaves_the_rest c id t :
  consistent c → t ∈ docs c → _id t = id →
  ∃ t' c',
    Mutation.complete id c = (inr (Some t'), c')
    ∧ _id <$> docs c' = _id <$> docs c
    ∧ length (docs c') = length (docs c)
    ∧ next_id c' = next_id c
    ∧ (∀ x, _id x ≠ id → x ∈ docs c' ↔ x ∈ docs c).
Proof.
  intros Hc Hin Hid.
  destruct (complete_existing c id t Hc Hin Hid) as (Hcall & _).
  eexists _, _. split; [exact Hcall|]. simpl.
  split; [by apply replace_id_const_ids|].
  split; [apply replace_id_length|]. split; [done|].
  intros x Hx. split.
  - intros Hin'. refine (replace_id_const_others id _ _ x _ Hin' Hx). reflexivity.
  - intros Hin'. by apply replace_id_others.
Qed.

Lemma complete_leaves_the_rest_witness :
  consistent sample ∧ milk ∈ docs sample ∧ _id milk = 0%N
  ∧ ∃ t' c',
      Mutation.complete 0%N sample = (inr (Some t'), c')
      ∧ length (docs c') = 3%nat
      ∧ home ∈ docs c'.
Proof.
  assert (milk ∈ docs sample) as Hin by apply list_elem_of_here.
  split; [apply sample_consistent|]. split; [exact Hin|]. split; [reflexivity|].
  destruct (complete_leaves_the_rest sample 0%N milk sample_consistent Hin eq_refl)
    as (t' & c' & Hcall & _ & Hlen & _ & Hothers).
  exists t', c'. split; [exact Hcall|]. split; [exact Hlen|].
  apply Hothers; [discriminate|]. apply list_elem_of_further, list_elem_of_here.
Defined.

(** X4. [complete] is idempotent: a second call with the same identifier
    answers what the first answered and leaves the collection as the first
    left it, whether the identifier is known or not. *)
Theorem complete_idempotent c id :
  consistent c →
  Mutation.complete id (Mutation.complete id c).2 = Mutation.complete id c.
Proof.
  intros Hc. destruct (decide (id ∈ _id <$> docs c)) as [Hin|Hout].
  - apply known_id in Hin as (t & Ht & Hid).
    destruct (complete_existing c id t Hc Ht Hid) as (Hcall & Hstored & _ & Hc').
    rewrite Hcall. simpl.
    destruct (complete_existing _ id _ Hc' Hstored eq_refl) as (Hcall' & _).
    rewrite Hcall'. simpl. by rewrite replace_id_const_twice.
  - rewrite (complete_unknown c id Hout). simpl. by apply complete_unknown.
Qed.

Lemma complete_idempotent_witness :
  consistent sample
  ∧ Mutation.complete 0%N (Mutation.complete 0%N sample).2 = Mutation.complete 0%N sample.
Proof.
  split; [apply sample_consistent|].
  exact (complete_idempotent sample 0%N sample_consistent).
Defined.

(** X5. [update] is idempotent: repeating a call with the same arguments
    answers the same document and leaves the same collection. *)
Theorem update_idempotent c id description priority :
  consistent c →
  Mutation.update id description priority (Mutation.update id description priority c).2
  = Mutation.update id description priority c.
Proof.
  intros Hc. destruct (decide (id ∈ _id <$> docs c)) as [Hin|Hout].
  - apply known_id in Hin as (t & Ht & Hid).
    destruct (update_existing c id description priority t Hc Ht Hid)
      as (Hcall & Hstored & _ & Hc').
    rewrite Hcall. simpl.
    destruct (update_existing _ id description priority _ Hc' Hstored eq_refl)
      as (Hcall' & _).
    rewrite Hcall'. simpl. by rewrite replace_id_const_twice.
  - rewrite (update_unknown c id description priority Hout). simpl.
    by apply update_unknown.
Qed.

Lemma update_idempotent_witness :
  consistent sample
  ∧ Mutation.update 2%N "air the bike" (Given 0)
      (Mutation.update 2%N "air the bike" (Given 0) sample).2
    = Mutation.update 2%N "air the bike" (Given 0) sample.
Proof.
  split; [apply sample_consistent|].
  exact (update_idempotent sample 2%N "air the bike" (Given 0) sample_consistent).
Defined.

(** X6. [update] and [complete] on the same identifier commute: in
    either order the second call answers the same document and the
    collection ends up the same. *)
Theorem update_complete_commute c id description priority :
  consistent c →
  Mutation.update id description priority (Mutation.complete id c).2
  = Mutation.complete id (Mutation.update id description priority c).2.
Proof.
  intros Hc. destruct (decide (id ∈ _id <$> docs c)) as [Hin|Hout].
  - apply known_id in Hin as (t & Ht & Hid).
    destruct (complete_existing c id t Hc Ht Hid) as (Hcall1 & Hstored1 & _ & Hc1).
    destruct (update_existing c id description priority t Hc Ht Hid)
      as (Hcall2 & Hstored2 & _ & Hc2).
    rewrite Hcall1, Hcall2. simpl.
    destruct (update_existing _ id description priority _ Hc1 Hstored1 eq_refl)
      as (Hcall12 & _).
    destruct (complete_existing _ id _ Hc2 Hstored2 eq_refl) as (Hcall21 & _).
    rewrite Hcall12, Hcall21. simpl. by rewrite !replace_id_const_twice.
  - rewrite (complete_unknown c id Hout), (update_unknown c id description priority Hout).
    simpl. by rewrite complete_unknown, update_unknown.
Qed.

Lemma update_complete_commute_witness :
  consistent sample
  ∧ Mutation.update 0%N "buy oat milk" (Given 2) (Mutation.complete 0%N sample).2
    = Mutation.complete 0%N (Mutation.update 0%N "buy oat milk" (Given 2) sample).2.
Proof.
  split; [apply sample_consistent|].
  exact (update_complete_commute sample 0%N "buy oat milk" (Given 2) sample_consistent).
Defined.

(** X7. After a [delete], a second [delete] of the same identifier answers
    [false] and changes nothing, whatever the first one answered. *)
Theorem delete_again c id :
  consistent c →
  Mutation.delete id (Mutation.delete id c).2 = (inr false, (Mutation.delete id c).2).
Proof.
  intros [Hnd _]. rewrite (delete_call c id).
  destruct (decide (id ∈ _id <$> docs c)) as [Hin|Hout].
  - rewrite remove_first_hit by done. simpl. rewrite delete_call. simpl.
    by rewrite remove_first_miss by apply filter_other_ids_gone.
  - rewrite remove_first_miss by done. simpl. rewrite delete_call.
    by rewrite remove_first_miss.
Qed.

Lemma delete_again_witness :
  consistent sample
  ∧ Mutation.delete 1%N (Mutation.delete 1%N sample).2
    = (inr false, (Mutation.delete 1%N sample).2).
Proof.
  split; [apply sample_consistent|].
  exact (delete_again sample 1%N sample_consistent).
Defined.

Lemma filter_replace_id id a (l : list Todo) :
  _id a = id →
  filter (λ x, _id x ≠ id) (replace_id id (λ _, a) l) = filter (λ x, _id x ≠ id) l.
Proof.
  intros Ha. unfold replace_id. induction l as [|x l IH]; csimpl; [done|].
  destruct (decide (_id x = id)) as [Hx|Hx].
  - rewrite !filter_cons_False by (intros ?; congruence). exact IH.
  - rewrite !filter_cons_True by done. by rewrite IH.
Qed.

(** X8. A document that was created can be completed and deleted under
    the identifier [create] answered: [complete] answers it with
    [completed] set and the rest as created, [delete] answers [true], and
    the list is then what it was before the three calls. *)
Theorem create_complete_delete c now description createdAt completed priority :
  consistent c → createdAt ≠ Given Invalid_Date →
  ∃ t c1 t2 c2 c3,
    Mutation.create now description createdAt completed priority c = (inr t, c1)
    ∧ Mutation.complete (_id t) c1 = (inr (Some t2), c2)
    ∧ Store.completed t2 = Some true
    ∧ Store.description t2 = description
    ∧ Store.createdAt t2 = Store.createdAt t
    ∧ Store.priority t2 = Store.priority t
    ∧ Mutation.delete (_id t) c2 = (inr true, c3)
    ∧ docs c3 = docs c
    ∧ ∀ D order, Query.todosList D Absent order Absent c3 = (inr (docs c), c3).
Proof.
  intros Hc Hdate.
  pose proof (create_call c now description createdAt completed priority Hdate) as Hcreate.
  simpl in Hcreate.
  set (t := mkTodo (next_id c) description
              (or_default (Some (Date_at now)) createdAt)
              (or_default (Some false) completed)
              (or_default (Some 1) priority)) in *.
  set (c1 := mkCollection (docs c ++ [t]) (N.succ (next_id c))) in *.
  assert (consistent c1) as Hc1 by (by apply create_consistent).
  assert (t ∈ docs c1) as Ht.
  { apply elem_of_app. right. apply list_elem_of_here. }
  destruct (complete_existing c1 (_id t) t Hc1 Ht eq_refl)
    as (Hcomplete & Hstored & _ & Hc2).
  eexists t, c1, _, _, _. split; [exact Hcreate|]. split; [exact Hcomplete|].
  do 4 (split; [done|]).
  assert (filter (λ x, _id x ≠ _id t) (docs c ++ [t]) = docs c) as Hback.
  { rewrite filter_app, filter_other_ids by (by apply next_id_fresh).
    rewrite filter_cons_False by (by intros []). by rewrite filter_nil, app_nil_r. }
  rewrite delete_call. rewrite remove_first_hit.
  - cbn [docs next_id]. rewrite filter_replace_id by done.
    change (docs c1) with (docs c ++ [t]). rewrite Hback.
    split; [reflexivity|]. split; [done|].
    intros D order. rewrite todosList_unsorted by (by left).
    by rewrite filter_selected_Absent.
  - apply Hc2.
  - apply list_elem_of_fmap. eexists. split; [|exact Hstored]. done.
Qed.

Lemma create_complete_delete_witness :
  consistent sample ∧ (Absent : arg Date) ≠ Given Invalid_Date
  ∧ ∃ t c1 t2 c2 c3,
      Mutation.create 9 "water plants" Absent Absent (Given 2) sample = (inr t, c1)
      ∧ Mutation.complete (_id t) c1 = (inr (Some t2), c2)
      ∧ Mutation.delete (_id t) c2 = (inr true, c3)
      ∧ docs c3 = [milk; home; bike].
Proof.
  assert ((Absent : arg Date) ≠ Given Invalid_Date) as Hdate by discriminate.
  split; [apply sample_consistent|]. split; [exact Hdate|].
  destruct (create_complete_delete sample 9 "water plants" Absent Absent (Given 2)
              sample_consistent Hdate)
    as (t & c1 & t2 & c2 & c3 & H1 & H2 & _ & _ & _ & _ & H3 & H4 & _).
  by exists t, c1, t2, c2, c3.
Defined.

(** X9. A document that was created is listed: last in the list without
    filter, and in the list filtered on [completed] exactly when its own
    [completed] is the value asked for. *)
Theorem create_then_listed D c now description createdAt completed priority order :
  createdAt ≠ Given Invalid_Date →
  ∃ t c1,
    Mutation.create now description createdAt completed priority c = (inr t, c1)
    ∧ Query.todosList D Absent order Absent c1 = (inr (docs c ++ [t]), c1)
    ∧ ∀ b : bool,
        Query.todosList D Absent order (Given b) c1
        = (inr (filter (λ x, Store.completed x = Some b) (docs c)
                ++ if decide (Store.completed t = Some b) then [t] else []), c1).
Proof.
  intros Hdate. eexists _, _. split; [by apply create_call|]. split.
  - rewrite todosList_unsorted by (by left). by rewrite filter_selected_Absent.
  - intros b. rewrite todosList_unsorted by (by left). simpl.
    rewrite filter_app, filter_cons, filter_nil.
    rewrite (list_filter_iff (selected (Given b)) (λ x, Store.completed x = Some b))
      by done.
    simpl. by repeat case_decide.
Qed.

Lemma create_then_listed_witness :
  (Absent : arg Date) ≠ Given Invalid_Date
  ∧ ∃ t c1,
      Mutation.create 9 "water plants" Absent Absent Absent sample = (inr t, c1)
      ∧ Query.todosList sample_driver Absent Absent (Given false) c1
        = (inr [milk; t], c1).
Proof.
  assert ((Absent : arg Date) ≠ Given Invalid_Date) as Hdate by discriminate.
  split; [exact Hdate|].
  destruct (create_then_listed sample_driver sample 9 "water plants" Absent Absent Absent
              Absent Hdate)
    as (t & c1 & Hcreate & _ & Hlist).
  exists t, c1. split; [exact Hcreate|]. rewrite (Hlist false).
  vm_compute in Hcreate. injection Hcreate as <- _. reflexivity.
Defined.

(** X10. [create] stores an explicit [null] as [null]: the defaults
    stand in for an argument that is left out only, and a value that is
    given is stored as it is. *)
Theorem create_explicit_null c now description createdAt completed priority :
  createdAt ≠ Given Invalid_Date →
  ∃ t c',
    Mutation.create now description createdAt completed priority c = (inr t, c')
    ∧ t ∈ docs c'
    ∧ (createdAt = Null → Store.createdAt t = None)
    ∧ (completed = Null → Store.completed t = None)
    ∧ (priority = Null → Store.priority t = None)
    ∧ (∀ d, createdAt = Given d → Store.createdAt t = Some d)
    ∧ (∀ b, completed = Given b → Store.completed t = Some b).
Proof.
  intros Hdate. eexists _, _. split; [by apply create_call|]. simpl.
  split; [apply elem_of_app; right; apply list_elem_of_here|].
  repeat split; by intros; subst.
Qed.

Lemma create_explicit_null_witness :
  (Null : arg Date) ≠ Given Invalid_Date
  ∧ ∃ c', Mutation.create 9 "water plants" Null Null Null Store.empty
          = (inr (mkTodo 0%N "water plants" None None None), c').
Proof.
  assert ((Null : arg Date) ≠ Given Invalid_Date) as Hdate by discriminate.
  split; [exact Hdate|].
  destruct (create_explicit_null Store.empty 9 "water plants" Null Null Null Hdate)
    as (t & c' & Hcall & _ & _ & _ & _ & _ & _).
  exists c'. rewrite Hcall. vm_compute in Hcall. by injection Hcall as <- _.
Defined.

(** * What every collection of the service satisfies *)

Lemma remove_first_Forall (P : Todo → Prop) q l l' :
  Forall P l → remove_first q l = Some l' → Forall P l'.
Proof.
  revert l'. induction l as [|t l IH]; intros l'; simpl; [done|].
  rewrite Forall_cons. intros [Ht Hl]. case_decide.
  - by intros [= <-].
  - destruct (remove_first q l) as [l0|]; simpl; [|done].
    intros [= <-]. apply Forall_cons. split; [done|]. by apply IH.
Qed.

Lemma replace_first_Forall (P : Todo → Prop) q f l r :
  (∀ x, P x → P (f x)) → Forall P l → replace_first q f l = Some r → Forall P r.2.
Proof.
  intros Hf. revert r. induction l as [|t l IH]; intros r; simpl; [done|].
  rewrite Forall_cons. intros [Ht Hl]. case_decide.
  - intros [= <-]. simpl. apply Forall_cons. split; [by apply Hf|done].
  - destruct (replace_first q f l) as [r0|]; simpl; [|done].
    intros [= <-]. simpl. apply Forall_cons. split; [done|]. by apply IH.
Qed.

Lemma apply_update_createdAt u t : createdAt (apply_update u t) = createdAt t.
Proof.
  unfold apply_update. revert t.
  induction u as [|a u IH]; intros t; simpl; [done|].
  rewrite IH. by destruct a.
Qed.

Lemma findOneAndUpdate_Forall (P : Todo → Prop) q u new c :
  (∀ x, P x → P (apply_update u x)) →
  Forall P (docs c) → Forall P (docs (findOneAndUpdate q u new c).2).
Proof.
  intros Hu Hc. unfold findOneAndUpdate.
  destruct (replace_first q (apply_update u) (docs c)) as [[[old upd] l]|] eqn:Hr;
    simpl; [|done].
  exact (replace_first_Forall P q _ _ _ Hu Hc Hr).
Qed.

Lemma reachable_dates c :
  reachable c → Forall (λ t, createdAt t ≠ Some Invalid_Date) (docs c).
Proof.
  induction 1 as [|c now description createdAt completed priority _ IH
                  |c id _ IH|c id description priority _ IH|c id _ IH].
  - apply Forall_nil_2.
  - destruct (decide (createdAt = Given Invalid_Date)) as [->|Hdate].
    + by rewrite create_rejected.
    + rewrite create_call by done. simpl. apply Forall_app. split; [done|].
      apply Forall_singleton. simpl. destruct createdAt as [| |[]]; simpl; congruence.
  - rewrite delete_call.
    destruct (remove_first (by_id id) (docs c)) as [l|] eqn:Hr; simpl; [|done].
    by eapply remove_first_Forall.
  - unfold Mutation.update, try_catch.
    match goal with
    | |- context [findOneAndUpdate ?q ?u ?n c] =>
        pose proof (findOneAndUpdate_Forall _ q u n c
                      (λ x Hx, eq_ind_r (λ d, d ≠ _) Hx (apply_update_createdAt u x)) IH)
          as Hkeep;
        destruct (findOneAndUpdate q u n c) as [[e|r] c']
    end; exact Hkeep.
  - unfold Mutation.complete, try_catch.
    match goal with
    | |- context [findOneAndUpdate ?q ?u ?n c] =>
        pose proof (findOneAndUpdate_Forall _ q u n c
                      (λ x Hx, eq_ind_r (λ d, d ≠ _) Hx (apply_update_createdAt u x)) IH)
          as Hkeep;
        destruct (findOneAndUpdate q u n c) as [[e|r] c']
    end; exact Hkeep.
Qed.

(** X12. In every collection the mutations can produce from the empty
    one, no two documents share an identifier, and every creation date that
    is stored is a date: the scalar sends it out as an integer, never as
    [NaN]. *)
Theorem reachable_ids_and_dates c :
  reachable c →
  NoDup (_id <$> docs c)
  ∧ ∀ t d, t ∈ docs c → createdAt t = Some d → ∃ ms, Scalar.serialize d = Num ms.
Proof.
  intros Hr. split; [apply (reachable_consistent c Hr)|].
  intros t d Ht Hd. pose proof (reachable_dates c Hr) as Hdates.
  rewrite Forall_forall in Hdates. specialize (Hdates t Ht).
  destruct d as [ms|]; [by exists ms|]. by destruct Hdates.
Qed.

Lemma reachable_ids_and_dates_witness :
  reachable (Mutation.complete 0%N
               (Mutation.create 5 "sleep" Absent Absent Absent Store.empty).2).2
  ∧ NoDup (_id <$> docs (Mutation.complete 0%N
                           (Mutation.create 5 "sleep" Absent Absent Absent Store.empty).2).2).
Proof.
  assert (reachable (Mutation.complete 0%N
                       (Mutation.create 5 "sleep" Absent Absent Absent Store.empty).2).2)
    as Hr by (apply reachable_complete, reachable_create, reachable_empty).
  split; [exact Hr|]. exact (proj1 (reachable_ids_and_dates _ Hr)).
Defined.

(** * More on [Query.todosList] *)

(** X14. Identifiers being unique, a list sorted on [_id] in descending
    order is the list sorted in ascending order, reversed. *)
Theorem todosList_by_id_reverse D c completed :
  consistent c →
  read_order D (Some "ASC"%string) = Some Ascending →
  read_order D (Some "DESC"%string) = Some Descending →
  ∃ l,
    Query.todosList D (Given "_id"%string) (Given "ASC"%string) completed c = (inr l, c)
    ∧ Query.todosList D (Given "_id"%string) (Given "DESC"%string) completed c
      = (inr (reverse l), c).
Proof.
  intros [Hnd _] Hasc Hdesc.
  set (hits := filter (selected completed) (docs c)).
  exists (merge_sort (before "_id" Ascending) hits).
  split; [by apply todosList_sorted|].
  rewrite (todosList_sorted D "_id" (Given "DESC"%string) completed c Descending)
    by done.
  fold hits. do 2 f_equal.
  apply (Sorted_unique_strong (before "_id" Descending)).
  - intros x1 x2 Hx1 Hx2 H12 H21.
    rewrite merge_sort_Permutation in Hx1.
    rewrite reverse_Permutation, merge_sort_Permutation in Hx2.
    apply list_elem_of_filter in Hx1 as [_ Hx1].
    apply list_elem_of_filter in Hx2 as [_ Hx2].
    apply (same_id (docs c)); [done..|].
    unfold before in H12, H21.
    change (get "_id" x1) with (BObjectId (_id x1)) in *.
    change (get "_id" x2) with (BObjectId (_id x2)) in *.
    simpl in H12, H21. lia.
  - apply (Sorted_merge_sort (before "_id" Descending)).
  - apply (Sorted_reverse (before "_id" Ascending)).
    apply (Sorted_merge_sort (before "_id" Ascending)).
  - by rewrite reverse_Permutation, !merge_sort_Permutation.
Qed.

Lemma todosList_by_id_reverse_witness :
  consistent sample
  ∧ read_order sample_driver (Some "ASC"%string) = Some Ascending
  ∧ read_order sample_driver (Some "DESC"%string) = Some Descending
  ∧ Query.todosList sample_driver (Given "_id"%string) (Given "DESC"%string) Absent sample
    = (inr [bike; home; milk], sample).
Proof.
  split; [apply sample_consistent|]. split; [reflexivity|]. split; [reflexivity|].
  destruct (todosList_by_id_reverse sample_driver sample Absent sample_consistent
              eq_refl eq_refl) as (l & Hasc & Hdesc).
  rewrite Hdesc. vm_compute in Hasc. by injection Hasc as <-.
Defined.

(** * More on the scalar [Date] *)

(** X15. A date within the range of time values survives the way out
    and back in through a variable, and a number within the range survives
    the way in and back out. *)
Theorem Date_round_trip other_forms t :
  Z.abs t ≤ 8640000000000000 →
  Scalar.parseValue other_forms (VNumber (Scalar.serialize (Date_at t))) = Date_at t
  ∧ Scalar.serialize (Scalar.parseValue other_forms (VNumber (Num t))) = Num t.
Proof.
  intros Ht. split.
  - by apply serialize_parseValue.
  - by rewrite parseValue_number.
Qed.

Lemma Date_round_trip_witness :
  Z.abs 1546300800000 ≤ 8640000000000000
  ∧ Scalar.parseValue (λ _, NaN) (VNumber (Scalar.serialize (Date_at 1546300800000)))
    = Date_at 1546300800000.
Proof.
  assert (Z.abs 1546300800000 ≤ 8640000000000000) as Ht by lia.
  split; [exact Ht|]. exact (proj1 (Date_round_trip (λ _, NaN) 1546300800000 Ht)).
Defined.

(** X16. A number sent through a variable becomes [Invalid Date] exactly
    when it lies more than 8.64e15 ms from the epoch, and [create] then
    fails and adds no document. *)
Theorem parseValue_out_of_range other_forms t :
  (Scalar.parseValue other_forms (VNumber (Num t)) = Invalid_Date
   ↔ 8640000000000000 < Z.abs t)
  ∧ (8640000000000000 < Z.abs t →
     ∀ c now description completed priority,
       ∃ e c',
         Mutation.create now description
           (Given (Scalar.parseValue other_forms (VNumber (Num t)))) completed priority c
         = (inl e, c')
         ∧ docs c' = docs c).
Proof.
  assert (Scalar.parseValue other_forms (VNumber (Num t)) = Invalid_Date
          ↔ 8640000000000000 < Z.abs t) as Hiff.
  { unfold Scalar.parseValue, new_Date. simpl. case_bool_decide; split; try done; lia. }
  split; [exact Hiff|].
  intros Ht c now description completed priority.
  rewrite (proj2 Hiff Ht), create_rejected. by eexists _, _.
Qed.

(** X17. An integer literal of four digits and the same integer sent
    through a variable never give the same date: the literal is read as a
    year. *)
Theorem literal_and_variable_disagree other_forms s y :
  year_only s = Some y →
  Scalar.parseLiteral other_forms (Scalar.IntValue s) = Some (Date_at (TimeFromYear y))
  ∧ Scalar.parseValue other_forms (VNumber (Num y)) = Date_at y
  ∧ Scalar.parseLiteral other_forms (Scalar.IntValue s)
    ≠ Some (Scalar.parseValue other_forms (VNumber (Num y))).
Proof.
  intros Hs. destruct (parseLiteral_year other_forms s y Hs) as [Hlit Hne].
  pose proof (year_only_range s y Hs) as Hy.
  assert (Scalar.parseValue other_forms (VNumber (Num y)) = Date_at y) as Hvar
    by (apply parseValue_number; lia).
  split; [exact Hlit|]. split; [exact Hvar|].
  rewrite Hlit, Hvar. intros [= ?]. done.
Qed.

Lemma literal_and_variable_disagree_witness :
  year_only "1999" = Some 1999
  ∧ Scalar.parseLiteral (λ _, NaN) (Scalar.IntValue "1999") = Some (Date_at 915148800000).
Proof.
  split; [reflexivity|].
  exact (proj1 (literal_and_variable_disagree (λ _, NaN) "1999" 1999 eq_refl)).
Defined.

(** * Identifiers over time *)

(** X18. After a [delete], [update] and [complete] on the same identifier
    answer [null] and change nothing. *)
Theorem delete_then_update_complete c id description priority :
  consistent c →
  let c' := (Mutation.delete id c).2 in
  Mutation.update id description priority c' = (inr None, c')
  ∧ Mutation.complete id c' = (inr None, c').
Proof.
  intros [Hnd _]. simpl.
  assert (id ∉ _id <$> docs (Mutation.delete id c).2) as Hgone.
  { rewrite delete_call. destruct (decide (id ∈ _id <$> docs c)) as [Hin|Hout].
    - rewrite remove_first_hit by done. apply filter_other_ids_gone.
    - by rewrite remove_first_miss. }
  split; [by apply update_unknown|by apply complete_unknown].
Qed.

Lemma delete_then_update_complete_witness :
  consistent sample
  ∧ Mutation.complete 1%N (Mutation.delete 1%N sample).2
    = (inr None, (Mutation.delete 1%N sample).2).
Proof.
  split; [apply sample_consistent|].
  exact (proj2 (delete_then_update_complete sample 1%N "" Absent sample_consistent)).
Defined.

(** X19. The identifier of a document that was deleted is not given to a
    document created afterwards. *)
Theorem delete_then_create_fresh_id c id now description createdAt completed priority :
  consistent c → id ∈ _id <$> docs c → createdAt ≠ Given Invalid_Date →
  ∃ t c',
    Mutation.create now description createdAt completed priority (Mutation.delete id c).2
    = (inr t, c')
    ∧ _id t ≠ id
    ∧ (_id t ∉ _id <$> docs c).
Proof.
  intros Hc Hin Hdate. eexists _, _. split; [by apply create_call|]. simpl.
  assert (next_id (Mutation.delete id c).2 = next_id c) as ->.
  { rewrite delete_call. by destruct (remove_first (by_id id) (docs c)). }
  pose proof (next_id_fresh c Hc) as Hfresh. split; [|done].
  intros Heq. by rewrite Heq in Hfresh.
Qed.

Lemma delete_then_create_fresh_id_witness :
  consistent sample ∧ (2%N ∈ _id <$> docs sample)
  ∧ (Absent : arg Date) ≠ Given Invalid_Date
  ∧ ∃ t c',
      Mutation.create 9 "air bike" Absent Absent Absent (Mutation.delete 2%N sample).2
      = (inr t, c')
      ∧ _id t ≠ 2%N.
Proof.
  assert (2%N ∈ _id <$> docs sample) as Hin.
  { apply (bool_decide_unpack _). reflexivity. }
  assert ((Absent : arg Date) ≠ Given Invalid_Date) as Hdate by discriminate.
  split; [apply sample_consistent|]. split; [exact Hin|]. split; [exact Hdate|].
  destruct (delete_then_create_fresh_id sample 2%N 9 "air bike" Absent Absent Absent
              sample_consistent Hin Hdate) as (t & c' & Hcall & Hne & _).
  by exists t, c'.
Defined.
